(** * Descriptive statistics accumulator (Descriptive.h)

    A shallow embedding of the class template [Descriptive<T>] and of the
    stream insertion operator declared next to it, followed by the
    properties of the accumulator.

    Conventions of the embedding.
    - The template parameter [T] is a type with the operations the template
      body uses ([T(0)], [+], [<], [std::numeric_limits<T>::min()] and the
      conversion to [double]); they form the class [Numeric].  Two instances
      are given: [int] (32-bit two's complement, carried by [Z] with the
      wrap-around written out) and [double] used as [T].
    - The C++ type [double] is idealised: a finite double is the real number
      it denotes and arithmetic on finite doubles is exact.  The special
      values that the code produces on purpose (not-a-number, and the
      infinities of a division by zero) are kept as constructors.
    - [std::partial_sort] is library code.  The operations take it as a
      parameter [partial_sort m l] (the range [l] with the middle iterator
      [m] positions after its beginning); the properties rely only on what
      the C++ standard promises ([partial_sort_contract]).  An executable
      model of the heap selection used by the common implementations is
      given as [heap_partial_sort] and shown to meet the contract.
    - [const] member functions that reach the [mutable] members return the
      accumulator next to their result.  A history of the accumulator is a
      program: a sequence of [add] and queries run from the constructor.
    - Reading a vector outside its bounds has no defined behaviour in C++;
      the embedding returns [None] there. *)

From Stdlib Require Import String Ascii.
From Stdlib Require Import List ZArith Reals Lra Lia Bool Arith.
From Stdlib Require Import Permutation Sorted.
Import ListNotations.

Set Implicit Arguments.

(** ** The type [double] *)

Inductive double : Type :=
| NaN                (* not a number, [nan("")] *)
| PInf               (* +infinity *)
| NInf               (* -infinity *)
| Fin (x : R).       (* a finite value *)

(** Division of two finite doubles ([x / y]); a zero divisor gives a
    not-a-number for [0 / 0] and an infinity otherwise. *)
Definition ddiv (x y : R) : double :=
  if Req_dec_T y 0 then
    if Req_dec_T x 0 then NaN
    else if Rlt_dec 0 x then PInf else NInf
  else Fin (x / y).

(** [sqrt] of a finite double. *)
Definition dsqrt (x : R) : double :=
  if Rlt_dec x 0 then NaN else Fin (sqrt x).

(** ** The numeric type parameter *)

Class Numeric (T : Type) : Type := {
  t_zero : T;                      (* T(0) *)
  t_plus : T -> T -> T;            (* operator+ / operator+= *)
  t_less : T -> T -> bool;         (* operator<; [v > m] is [t_less m v] *)
  limits_min : T;                  (* std::numeric_limits<T>::min() *)
  to_double : T -> R               (* conversion to double *)
}.

(** What the order statistics need of [operator<]: a strict total order. *)
Class NumericOrder (T : Type) `{Numeric T} : Prop := {
  less_irrefl : forall x, t_less x x = false;
  less_trans : forall x y z,
      t_less x y = true -> t_less y z = true -> t_less x z = true;
  less_total : forall x y,
      t_less x y = false -> t_less y x = false -> x = y
}.

Arguments NumericOrder T {_}.

(** *** [int]: 32-bit two's complement

    A value of [int] is an integer of [in_range].  Signed overflow has no
    defined behaviour in C++; the embedding gives it the two's complement
    result, as does the narrowing of [values.size()] to [int]. *)

Definition int : Type := Z.

Definition int_min : Z := (- 2 ^ 31)%Z.
Definition int_max : Z := (2 ^ 31 - 1)%Z.

Definition in_range (z : Z) : Prop := (int_min <= z <= int_max)%Z.

(** Reduction of an integer into the range of [int]. *)
Definition wrap (z : Z) : Z := ((z + 2 ^ 31) mod 2 ^ 32 - 2 ^ 31)%Z.

#[export] Instance int_numeric : Numeric int := {|
  t_zero := 0%Z;
  t_plus := fun x y => wrap (x + y);
  t_less := Z.ltb;
  limits_min := int_min;
  to_double := IZR
|}.

(** An integer type in general: its values are the integers from [lo] to
    some [hi], [+] is exact when its result is one of them and is [w] of
    the exact result otherwise.  [int] is the case of [int_min] and
    [wrap]. *)
Definition integer_type (lo : Z) (w : Z -> Z) : Numeric Z := {|
  t_zero := 0%Z;
  t_plus := fun x y => w (x + y)%Z;
  t_less := Z.ltb;
  limits_min := lo;
  to_double := IZR
|}.

(** *** [double] as the element type

    [std::numeric_limits<double>::min()] is the smallest positive
    normalised value, 2^-1022. *)

Definition DBL_MIN : R := (/ 2 ^ 1022)%R.

Definition Rltb (x y : R) : bool := if Rlt_dec x y then true else false.

#[export] Instance double_numeric : Numeric R := {|
  t_zero := 0%R;
  t_plus := Rplus;
  t_less := Rltb;
  limits_min := DBL_MIN;
  to_double := fun x => x
|}.

(** ** The accumulator *)

Section Descriptive.

Context {T : Type} `{Numeric T}.

(** [std::partial_sort(first, first + m, last)] on the range holding [l]. *)
Variable partial_sort : nat -> list T -> list T.

Record Descriptive : Type := mkDescriptive {
  sum : T;
  max : T;
  values : list T;
  a : R;
  q : R;
  is_sorted : bool
}.

(** The constructor. *)
Definition ctor : Descriptive :=
  {| sum := t_zero;
     max := limits_min;
     values := [];
     a := 0%R;
     q := 0%R;
     is_sorted := true |}.

(** Sort the first half of the values to obtain median and min. *)
Definition sort (d : Descriptive) : Descriptive :=
  if is_sorted d then d
  else
    {| sum := sum d;
       max := max d;
       values := partial_sort (length (values d) / 2 + 1) (values d);
       a := a d;
       q := q d;
       is_sorted := true |}.

Definition get_sum (d : Descriptive) : T := sum d.

(** [values.size()] converted to [int]. *)
Definition get_count (d : Descriptive) : Z :=
  wrap (Z.of_nat (length (values d))).

(** [values.front()] after [sort()]. *)
Definition get_min (d : Descriptive) : option T * Descriptive :=
  let d' := sort d in
  (nth_error (values d') 0, d').

Definition get_max (d : Descriptive) : T := max d.

Definition get_mean (d : Descriptive) : double :=
  ddiv (to_double (sum d)) (INR (length (values d))).

Definition get_median (d : Descriptive) : option double * Descriptive :=
  if Nat.eqb (length (values d)) 0 then (Some NaN, d)
  else
    let d' := sort d in
    let n := length (values d') in
    if Nat.eqb (n mod 2) 0 then
      (match nth_error (values d') (n / 2),
             nth_error (values d') (n / 2 + 1) with
       | Some x, Some y => Some (Fin (to_double (t_plus x y) / 2))
       | _, _ => None
       end, d')
    else
      (match nth_error (values d') (n / 2) with
       | Some x => Some (Fin (to_double x))
       | None => None
       end, d').

Definition add (v : T) (d : Descriptive) : Descriptive :=
  let values' := values d ++ [v] in
  let a_prev := a d in
  let a' := (a_prev + (to_double v - a_prev) / INR (length values'))%R in
  {| sum := t_plus (sum d) v;
     max := if t_less (max d) v then v else max d;
     values := values';
     a := a';
     q := (q d + (to_double v - a_prev) * (to_double v - a'))%R;
     is_sorted := false |}.

Definition get_standard_deviation (d : Descriptive) : double :=
  if Nat.eqb (length (values d)) 0 then NaN
  else dsqrt (q d / INR (length (values d))).

(** *** Rendering

    The output stream is the list of the items inserted into it. *)

Inductive item : Type :=
| OInt (n : Z)           (* o << int *)
| OVal (v : T)           (* o << T *)
| ODouble (x : double)   (* o << double *)
| OChar (c : ascii)      (* o << char *)
| OStr (s : string).     (* o << const char * *)

Definition tab : ascii := Ascii.ascii_of_nat 9.

Definition empty_line : string :=
  String "0" (String tab (String tab (String tab (String tab EmptyString)))).

(** [operator<<(std::ostream &, const Descriptive<T> &)]: the items
    appended to the stream. *)
Definition render (d : Descriptive) : option (list item) * Descriptive :=
  if negb (Z.eqb (get_count d) 0) then
    match get_min d with
    | (Some m, d') =>
        (Some [OInt (get_count d'); OChar tab; OVal m; OChar tab;
               ODouble (get_mean d'); OChar tab; OVal (get_max d');
               OChar tab; ODouble (get_standard_deviation d')], d')
    | (None, d') => (None, d')
    end
  else (Some [OStr empty_line], d).

(** The accumulator after adding the values of [l] in order. *)
Definition adds (l : list T) : Descriptive :=
  fold_left (fun d v => add v d) l ctor.

(** *** The cache flag

    [sort()] meets [std::partial_sort] with a non-empty vector only: the
    flag is cleared by [add] alone, after its [push_back]. *)
Definition valid (d : Descriptive) : Prop :=
  is_sorted d = false -> values d <> [].

(** *** Queries and programs

    The public operations, as values: a query with its answer, and a
    program as a sequence of [add] and queries run on a new accumulator. *)

Inductive query : Type :=
| QCount | QSum | QMin | QMax | QMean | QMedian | QStandardDeviation
| QRender.

Inductive answer : Type :=
| AInt (n : Z)
| AVal (v : T)
| AFront (v : option T)
| ADouble (x : double)
| AMedian (x : option double)
| AOut (o : option (list item)).

Definition run_query (k : query) (d : Descriptive) : answer * Descriptive :=
  match k with
  | QCount => (AInt (get_count d), d)
  | QSum => (AVal (get_sum d), d)
  | QMin => let (r, d') := get_min d in (AFront r, d')
  | QMax => (AVal (get_max d), d)
  | QMean => (ADouble (get_mean d), d)
  | QMedian => let (r, d') := get_median d in (AMedian r, d')
  | QStandardDeviation => (ADouble (get_standard_deviation d), d)
  | QRender => let (r, d') := render d in (AOut r, d')
  end.

Definition run_queries (ks : list query) (d : Descriptive) : Descriptive :=
  fold_left (fun d k => snd (run_query k d)) ks d.


(** The calls whose body reaches [sort()]: [get_min()] always,
    [get_median()] past its test of [values.size()], the insertion
    operator past its test of [get_count()]. *)
Definition calls_sort (k : query) (d : Descriptive) : bool :=
  match k with
  | QMin => true
  | QMedian => negb (Nat.eqb (length (values d)) 0)
  | QRender => negb (Z.eqb (get_count d) 0)
  | _ => false
  end.

Inductive op : Type :=
| Add (v : T)
| Query (k : query).

Definition step (d : Descriptive) (o : op) : Descriptive :=
  match o with
  | Add v => add v d
  | Query k => snd (run_query k d)
  end.

Definition run (ops : list op) : Descriptive := fold_left step ops ctor.


(** The values a program adds, in order. *)
Fixpoint added (ops : list op) : list T :=
  match ops with
  | [] => []
  | Add v :: ops' => v :: added ops'
  | Query _ :: ops' => added ops'
  end.

End Descriptive.

(** ** Order on the element type, ascending lists *)

Section OrderDefinitions.

Context {T : Type} `{Numeric T}.

(** [t_le x y]: not [y < x]. *)
Definition t_le (x y : T) : Prop := t_less y x = false.

(** Insertion of [x] into an ascending list. *)
Fixpoint insert (x : T) (l : list T) : list T :=
  match l with
  | [] => [x]
  | y :: l' => if t_less x y then x :: l else y :: insert x l'
  end.

(** The values of [l] in ascending order. *)
Definition ascending (l : list T) : list T := fold_right insert [] l.

(** What the C++ standard promises of [std::partial_sort(first, middle,
    last)] when [middle] lies in the range: the elements are rearranged, the
    first [m] positions hold the [m] smallest of them in ascending order,
    the order of the others is unspecified. *)
Definition partial_sort_contract (ps : nat -> list T -> list T) : Prop :=
  forall m l, m <= length l ->
    Permutation l (ps m l) /\
    Sorted t_le (firstn m (ps m l)) /\
    (forall x y, In x (firstn m (ps m l)) -> In y (skipn m (ps m l)) ->
                 t_le x y).

(** *** Heap selection

    The common implementations of [std::partial_sort] build a max-heap over
    the first [m] positions, then visit the other positions from left to
    right: an element smaller than the top of the heap is exchanged with it
    and the heap is repaired ([pop_heap]); at the end the heap is sorted in
    place.  The heap is represented here by its contents in ascending order
    (its top is the last one); [out] collects what is left at the visited
    positions.  Values that compare equal are equal, so that the exchange
    is fixed by the values alone. *)
Definition heap_step (st : list T * list T) (x : T) : list T * list T :=
  let (h, out) := st in
  let top := last h x in
  if t_less x top then (insert x (removelast h), out ++ [top])
  else (h, out ++ [x]).

Definition heap_partial_sort (m : nat) (l : list T) : list T :=
  let (h, out) :=
    fold_left heap_step (skipn m l) (ascending (firstn m l), []) in
  h ++ out.

(** The largest value met by a left-to-right scan starting at [x]. *)
Definition list_max (x : T) (l : list T) : T :=
  fold_left (fun m v => if t_less m v then v else m) l x.

(** [is_max y l]: [y] is a largest value of [l]. *)
Definition is_max (y : T) (l : list T) : Prop :=
  In y l /\ (forall z, In z l -> t_le z y).

(** The largest value of a list, if it has one. *)
Definition maximum (l : list T) : option T :=
  match l with
  | [] => None
  | x :: l' => Some (list_max x l')
  end.

(** [V] and [L], of [k] values each, have the same largest values in
    every prefix longer than [k / 2 + 1]. *)
Definition same_prefix_max (k : nat) (V L : list T) : Prop :=
  forall j y, k / 2 + 1 < j ->
              (is_max y (firstn j V) <-> is_max y (firstn j L)).

(** The invariant of the heap selection: the heap is ascending and no
    value left behind is smaller than a value of the heap. *)
Definition heap_ok (st : list T * list T) : Prop :=
  StronglySorted t_le (fst st) /\
  (forall x y, In x (fst st) -> In y (snd st) -> t_le x y).

(** The cache invariant: when [is_sorted] is set, the first
    [count / 2 + 1] positions of [values] hold what they hold in the
    ascending order of the values. *)
Definition cached (d : @Descriptive T) : Prop :=
  is_sorted d = true ->
  firstn (length (values d) / 2 + 1) (values d)
  = firstn (length (values d) / 2 + 1) (ascending (values d)).

End OrderDefinitions.

(** ** Reference formulas *)

(** The two-pass formulas on the reals. *)

Definition rsum (xs : list R) : R := fold_right Rplus 0%R xs.

Definition mean (xs : list R) : R := (rsum xs / INR (length xs))%R.

Definition population_variance (xs : list R) : R :=
  (1 / INR (length xs) *
   rsum (map (fun x => (x - mean xs) * (x - mean xs)) xs))%R.

Definition population_standard_deviation (xs : list R) : R :=
  sqrt (population_variance xs).

(** The arithmetic sum of integers. *)
Definition zsum (l : list Z) : Z := fold_right Z.add 0%Z l.

(** [running lo hi l]: after each [add] of [l] the arithmetic sum so far
    lies between [lo] and [hi]. *)
Definition running (lo hi : Z) (l : list Z) : Prop :=
  forall k, (lo <= zsum (firstn k l) <= hi)%Z.

(** The fields of a line of text: the pieces between tab characters. *)
Fixpoint fields (s : string) : list string :=
  match s with
  | EmptyString => [EmptyString]
  | String c s' =>
      if Ascii.eqb c tab then EmptyString :: fields s'
      else match fields s' with
           | f :: fs => String c f :: fs
           | [] => [String c EmptyString]
           end
  end.

(** ** Properties of the order and of ascending lists *)

Section Order.

Context {T : Type} `{Numeric T} `{!NumericOrder T}.

Lemma less_asym (x y : T) : t_less x y = true -> t_less y x = false.
Proof.
  intros Hxy. destruct (t_less y x) eqn:Hyx; [|reflexivity].
  rewrite <- (less_irrefl x). symmetry. exact (less_trans _ _ _ Hxy Hyx).
Qed.

Lemma t_le_refl (x : T) : t_le x x.
Proof. apply less_irrefl. Qed.

Lemma t_le_trans (x y z : T) : t_le x y -> t_le y z -> t_le x z.
Proof.
  unfold t_le. intros Hxy Hyz.
  destruct (t_less z x) eqn:Hzx; [|reflexivity].
  destruct (t_less x y) eqn:E.
  - rewrite <- Hyz. symmetry. exact (less_trans _ _ _ Hzx E).
  - assert (x = y) by (apply less_total; assumption).
    subst. congruence.
Qed.

Lemma t_le_antisym (x y : T) : t_le x y -> t_le y x -> x = y.
Proof. unfold t_le. intros. apply less_total; assumption. Qed.

Lemma t_le_total (x y : T) : t_le x y \/ t_le y x.
Proof.
  unfold t_le. destruct (t_less y x) eqn:E; [right|left; reflexivity].
  apply less_asym; assumption.
Qed.

Lemma less_le (x y : T) : t_less x y = true -> t_le x y.
Proof. apply less_asym. Qed.

(** **** Insertion sort *)

Lemma insert_perm (x : T) (l : list T) : Permutation (x :: l) (insert x l).
Proof.
  induction l as [|y l IH]; simpl; [reflexivity|].
  destruct (t_less x y); [reflexivity|].
  rewrite perm_swap. apply perm_skip. exact IH.
Qed.

Lemma insert_sorted (x : T) (l : list T) :
  StronglySorted t_le l -> StronglySorted t_le (insert x l).
Proof.
  induction 1 as [|y l Hs IH Hall]; simpl.
  - repeat constructor.
  - destruct (t_less x y) eqn:E.
    + constructor; [constructor; assumption|].
      constructor; [apply less_le; exact E|].
      eapply Forall_impl; [|exact Hall].
      intros z Hz. eapply t_le_trans; [apply less_le; exact E|exact Hz].
    + constructor; [exact IH|].
      eapply Permutation_Forall; [apply insert_perm|].
      constructor; assumption.
Qed.

Lemma ascending_perm (l : list T) : Permutation l (ascending l).
Proof.
  induction l as [|x l IH]; simpl; [reflexivity|].
  rewrite <- insert_perm. apply perm_skip. exact IH.
Qed.

Lemma ascending_sorted (l : list T) : StronglySorted t_le (ascending l).
Proof.
  induction l as [|x l IH]; simpl; [constructor|].
  apply insert_sorted. exact IH.
Qed.

Lemma ascending_length (l : list T) : length (ascending l) = length l.
Proof. symmetry. apply Permutation_length, ascending_perm. Qed.

Lemma Sorted_strongly (l : list T) : Sorted t_le l -> StronglySorted t_le l.
Proof.
  apply Sorted_StronglySorted. intros x y z. apply t_le_trans.
Qed.

(** An ascending arrangement of given values is unique. *)
Lemma sorted_perm_unique (l1 l2 : list T) :
  StronglySorted t_le l1 -> StronglySorted t_le l2 ->
  Permutation l1 l2 -> l1 = l2.
Proof.
  intros H1. revert l2.
  induction H1 as [|x l1 Hs1 IH Hall1]; intros l2 H2 Hp.
  - apply Permutation_nil in Hp. subst. reflexivity.
  - destruct H2 as [|y l2 Hs2 Hall2].
    + symmetry in Hp. apply Permutation_nil in Hp. discriminate.
    + assert (Hxy : x = y).
      { assert (Hx : In x (y :: l2))
          by (eapply Permutation_in; [exact Hp|left; reflexivity]).
        assert (Hy : In y (x :: l1))
          by (eapply Permutation_in;
              [symmetry; exact Hp|left; reflexivity]).
        destruct Hx as [Hx|Hx]; [congruence|].
        destruct Hy as [Hy|Hy]; [congruence|].
        rewrite Forall_forall in Hall1, Hall2.
        apply t_le_antisym; auto. }
      subst y. f_equal. apply IH; [exact Hs2|].
      eapply Permutation_cons_inv. exact Hp.
Qed.

Lemma sorted_app (l1 l2 : list T) :
  StronglySorted t_le l1 -> StronglySorted t_le l2 ->
  (forall x y, In x l1 -> In y l2 -> t_le x y) ->
  StronglySorted t_le (l1 ++ l2).
Proof.
  induction 1 as [|x l1 Hs IH Hall]; intros H2 Hb; simpl; [exact H2|].
  constructor.
  - apply IH; [exact H2|]. intros; apply Hb; [right|]; assumption.
  - apply Forall_app. split; [exact Hall|].
    apply Forall_forall. intros y Hy. apply Hb; [left; reflexivity|exact Hy].
Qed.

Lemma sorted_app_inv (l1 l2 : list T) :
  StronglySorted t_le (l1 ++ l2) ->
  forall x y, In x l1 -> In y l2 -> t_le x y.
Proof.
  induction l1 as [|z l1 IH]; simpl; intros Hs x y Hx Hy; [destruct Hx|].
  inversion Hs as [|? ? Hs' Hall]; subst.
  destruct Hx as [<-|Hx]; [|apply IH; assumption].
  rewrite Forall_forall in Hall. apply Hall. apply in_or_app. right. exact Hy.
Qed.

Lemma sorted_snoc_inv (l : list T) (x : T) :
  StronglySorted t_le (l ++ [x]) ->
  StronglySorted t_le l /\ Forall (fun z => t_le z x) l.
Proof.
  induction l as [|y l IH]; simpl; intros Hs.
  - split; constructor.
  - inversion Hs as [|? ? Hs' Hall]; subst.
    destruct (IH Hs') as [Hl Hf]. split.
    + constructor; [exact Hl|].
      apply Forall_app in Hall. tauto.
    + constructor; [|exact Hf].
      apply Forall_app in Hall. destruct Hall as [_ Hx].
      inversion Hx; assumption.
Qed.

(** **** Heap selection meets the contract *)

Lemma heap_step_ok (st : list T * list T) (x : T) :
  heap_ok st ->
  heap_ok (heap_step st x) /\
  length (fst (heap_step st x)) = length (fst st) /\
  Permutation (fst st ++ snd st ++ [x])
              (fst (heap_step st x) ++ snd (heap_step st x)).
Proof.
  destruct st as [h out]. unfold heap_ok, heap_step. simpl.
  intros [Hs Hb].
  destruct (t_less x (last h x)) eqn:E; simpl.
  - assert (Hne : h <> []).
    { intros ->. simpl in E. rewrite less_irrefl in E. discriminate. }
    destruct (exists_last Hne) as (r & top & ->).
    rewrite last_last in *. rewrite removelast_last.
    destruct (sorted_snoc_inv _ _ Hs) as [Hr Htop].
    rewrite Forall_forall in Htop.
    split; [split|split].
    + apply insert_sorted. exact Hr.
    + intros z y Hz Hy.
      apply (Permutation_in _ (Permutation_sym (insert_perm x r))) in Hz.
      apply in_app_or in Hy.
      destruct Hz as [<-|Hz], Hy as [Hy|[<-|[]]].
      * eapply t_le_trans; [apply less_le; exact E|].
        apply Hb; [apply in_or_app; right; left; reflexivity|exact Hy].
      * apply less_le; exact E.
      * apply Hb; [apply in_or_app; left; exact Hz|exact Hy].
      * apply Htop; exact Hz.
    + rewrite <- (Permutation_length (insert_perm x r)).
      rewrite length_app. simpl. lia.
    + rewrite <- insert_perm. rewrite <- !app_assoc. simpl.
      rewrite (Permutation_app_comm out [x]). simpl.
      rewrite (Permutation_app_comm out [top]). simpl.
      transitivity (r ++ x :: top :: out).
      * apply Permutation_app_head. apply perm_swap.
      * symmetry. apply Permutation_middle.
  - split; [split|split].
    + exact Hs.
    + intros z y Hz Hy. apply in_app_or in Hy.
      destruct Hy as [Hy|[<-|[]]]; [apply Hb; assumption|].
      destruct h as [|h0 h']; [destruct Hz|].
      assert (Hne : h0 :: h' <> []) by discriminate.
      destruct (exists_last Hne) as (r & top & Hh).
      rewrite Hh in *. rewrite last_last in E.
      destruct (sorted_snoc_inv _ _ Hs) as [_ Htop].
      rewrite Forall_forall in Htop.
      apply in_app_or in Hz.
      destruct Hz as [Hz|[<-|[]]]; [|exact E].
      eapply t_le_trans; [apply Htop; exact Hz|exact E].
    + reflexivity.
    + rewrite app_assoc. reflexivity.
Qed.

Lemma heap_fold_ok (tl : list T) (st : list T * list T) :
  heap_ok st ->
  heap_ok (fold_left heap_step tl st) /\
  length (fst (fold_left heap_step tl st)) = length (fst st) /\
  Permutation (fst st ++ snd st ++ tl)
              (fst (fold_left heap_step tl st) ++
               snd (fold_left heap_step tl st)).
Proof.
  revert st. induction tl as [|x tl IH]; intros st Hok; simpl.
  - rewrite app_nil_r. auto.
  - destruct (heap_step_ok x Hok) as (Hok' & Hlen & Hp).
    destruct (IH _ Hok') as (Hok'' & Hlen' & Hp').
    split; [exact Hok''|]. split; [congruence|].
    rewrite <- Hp'.
    change (x :: tl) with ([x] ++ tl). rewrite !app_assoc.
    apply Permutation_app_tail. rewrite <- app_assoc. exact Hp.
Qed.

Lemma heap_partial_sort_contract : partial_sort_contract heap_partial_sort.
Proof.
  intros m l Hm. unfold heap_partial_sort.
  assert (Hok : heap_ok (ascending (firstn m l), @nil T)).
  { split; simpl; [apply ascending_sorted|intros ? ? _ []]. }
  destruct (heap_fold_ok (skipn m l) Hok) as ([Hs Hb] & Hlen & Hp).
  destruct (fold_left heap_step (skipn m l) (ascending (firstn m l), []))
    as [h out].
  simpl in *.
  assert (Hh : length h = m).
  { rewrite Hlen, ascending_length, length_firstn. lia. }
  assert (Hf : firstn m (h ++ out) = h).
  { rewrite <- Hh, firstn_app, Nat.sub_diag, firstn_all. apply app_nil_r. }
  assert (Hk : skipn m (h ++ out) = out).
  { rewrite <- Hh, skipn_app, Nat.sub_diag, skipn_all. reflexivity. }
  rewrite Hf, Hk. split; [|split].
  - rewrite <- Hp. rewrite <- (firstn_skipn m l) at 1.
    apply Permutation_app_tail. apply ascending_perm.
  - apply StronglySorted_Sorted. exact Hs.
  - exact Hb.
Qed.

(** **** Largest values *)

Lemma list_max_spec (l : list T) (x : T) :
  (list_max x l = x \/ In (list_max x l) l) /\
  t_le x (list_max x l) /\
  (forall y, In y l -> t_le y (list_max x l)).
Proof.
  revert x. induction l as [|v l IH]; intros x; simpl.
  - split; [left; reflexivity|]. split; [apply t_le_refl|intros ? []].
  - unfold list_max in *. simpl.
    destruct (t_less x v) eqn:E.
    + destruct (IH v) as (Hin & Hle & Hub). split; [|split].
      * right. destruct Hin as [->|Hin]; [left; reflexivity|right; exact Hin].
      * eapply t_le_trans; [apply less_le; exact E|exact Hle].
      * intros y [<-|Hy]; [exact Hle|apply Hub; exact Hy].
    + destruct (IH x) as (Hin & Hle & Hub). split; [|split].
      * destruct Hin as [->|Hin]; [left; reflexivity|right; right; exact Hin].
      * exact Hle.
      * intros y [<-|Hy]; [|apply Hub; exact Hy].
        eapply t_le_trans; [exact E|exact Hle].
Qed.

Lemma is_max_unique (y y' : T) (l : list T) :
  is_max y l -> is_max y' l -> y = y'.
Proof.
  intros [Hy Hub] [Hy' Hub']. apply t_le_antisym; auto.
Qed.

Lemma is_max_perm (y : T) (l l' : list T) :
  Permutation l l' -> is_max y l -> is_max y l'.
Proof.
  intros Hp [Hy Hub]. split.
  - eapply Permutation_in; eassumption.
  - intros z Hz. apply Hub.
    eapply Permutation_in; [symmetry; exact Hp|exact Hz].
Qed.

Lemma maximum_is_max (l : list T) (y : T) :
  maximum l = Some y <-> is_max y l.
Proof.
  destruct l as [|x l]; simpl.
  - split; [discriminate|intros [[] _]].
  - destruct (list_max_spec l x) as (Hin & Hle & Hub).
    assert (Hm : is_max (list_max x l) (x :: l)).
    { split.
      - destruct Hin as [->|Hin]; [left; reflexivity|right; exact Hin].
      - intros z [<-|Hz]; [exact Hle|apply Hub; exact Hz]. }
    split.
    + intros E. injection E as <-. exact Hm.
    + intros Hy. f_equal. eapply is_max_unique; eassumption.
Qed.

(** Two lists each of whose values is below a value of the other have the
    same largest values. *)
Lemma is_max_dominated (y : T) (l l' : list T) :
  (forall z, In z l -> exists w, In w l' /\ t_le z w) ->
  (forall w, In w l' -> exists z, In z l /\ t_le w z) ->
  is_max y l -> is_max y l'.
Proof.
  intros H1 H2 [Hy Hub].
  destruct (H1 y Hy) as (w & Hw & Hyw).
  destruct (H2 w Hw) as (z & Hz & Hwz).
  assert (E : w = y).
  { apply t_le_antisym; [|exact Hyw].
    eapply t_le_trans; [exact Hwz|apply Hub; exact Hz]. }
  subst w. split; [exact Hw|].
  intros w' Hw'. destruct (H2 w' Hw') as (z' & Hz' & Hwz').
  eapply t_le_trans; [exact Hwz'|apply Hub; exact Hz'].
Qed.

(** **** What heap selection leaves outside the heap *)

Lemma in_firstn_nth (l : list T) (c : nat) (z : T) :
  In z (firstn c l) <-> exists i, i < c /\ nth_error l i = Some z.
Proof.
  split.
  - intros Hz. apply In_nth_error in Hz. destruct Hz as [i Hi].
    rewrite nth_error_firstn in Hi.
    destruct (Nat.ltb_spec i c); [|discriminate]. exists i. auto.
  - intros (i & Hi & Hz). apply (nth_error_In _ i).
    rewrite nth_error_firstn. apply Nat.ltb_lt in Hi. rewrite Hi. exact Hz.
Qed.

Lemma in_firstn_le (l : list T) (c c' : nat) (z : T) :
  c <= c' -> In z (firstn c l) -> In z (firstn c' l).
Proof.
  intros Hc Hz. apply in_firstn_nth in Hz. destruct Hz as (i & Hi & Hz).
  apply in_firstn_nth. exists i. split; [lia|exact Hz].
Qed.

Lemma heap_step_in (h out : list T) (t z : T) :
  In z (fst (heap_step (h, out) t)) -> z = t \/ In z h.
Proof.
  unfold heap_step. destruct (t_less t (last h t)) eqn:E; cbn [fst]; auto.
  assert (Hne : h <> []).
  { intros ->. simpl in E. rewrite less_irrefl in E. discriminate. }
  destruct (exists_last Hne) as (r & top & ->).
  rewrite removelast_last. intros Hz.
  apply (Permutation_in _ (Permutation_sym (insert_perm t r))) in Hz.
  destruct Hz as [<-|Hz]; [left; reflexivity|].
  right. apply in_or_app. left. exact Hz.
Qed.

(** One step leaves at the visited position the visited value or the top
    of the heap, whichever is larger. *)
Lemma heap_step_out (h out : list T) (t : T) :
  exists o, snd (heap_step (h, out) t) = out ++ [o] /\
            t_le t o /\ (o = t \/ In o h) /\
            (StronglySorted t_le h -> forall z, In z h -> t_le z o).
Proof.
  unfold heap_step. destruct (t_less t (last h t)) eqn:E; cbn [snd].
  - assert (Hne : h <> []).
    { intros ->. simpl in E. rewrite less_irrefl in E. discriminate. }
    destruct (exists_last Hne) as (r & top & ->).
    rewrite last_last in *. exists top. split; [reflexivity|].
    split; [apply less_le; exact E|].
    split; [right; apply in_or_app; right; left; reflexivity|].
    intros Hs z Hz. destruct (sorted_snoc_inv _ _ Hs) as [_ Htop].
    rewrite Forall_forall in Htop. apply in_app_or in Hz.
    destruct Hz as [Hz|[<-|[]]]; [apply Htop; exact Hz|apply t_le_refl].
  - exists t. split; [reflexivity|]. split; [apply t_le_refl|].
    split; [left; reflexivity|].
    intros Hs z Hz. destruct h as [|h0 h']; [destruct Hz|].
    assert (Hne : h0 :: h' <> []) by discriminate.
    destruct (exists_last Hne) as (r & top & Hh).
    rewrite Hh in *. rewrite last_last in E.
    destruct (sorted_snoc_inv _ _ Hs) as [_ Htop].
    rewrite Forall_forall in Htop. apply in_app_or in Hz.
    destruct Hz as [Hz|[<-|[]]]; [|exact E].
    eapply t_le_trans; [apply Htop; exact Hz|exact E].
Qed.

Lemma heap_fold_outs (tl h out : list T) :
  exists outs,
    snd (fold_left heap_step tl (h, out)) = out ++ outs /\
    length outs = length tl /\
    (forall i t o, nth_error tl i = Some t -> nth_error outs i = Some o ->
                   t_le t o /\ In o (h ++ firstn (S i) tl)) /\
    (StronglySorted t_le h ->
     forall o z, nth_error outs 0 = Some o -> In z h -> t_le z o).
Proof.
  revert h out. induction tl as [|t tl IH]; intros h out.
  - exists []. simpl. rewrite app_nil_r. split; [reflexivity|].
    split; [reflexivity|]. split; [intros [|i]; discriminate|discriminate].
  - cbn [fold_left].
    destruct (heap_step_out h out t) as (o & Hout & Hto & Hoin & Hoge).
    pose proof (heap_step_in h out t) as Hheap.
    destruct (heap_step (h, out) t) as [h1 out1]. cbn [fst snd] in *.
    subst out1.
    destruct (IH h1 (out ++ [o])) as (outs & Hs & Hlen & Hpos & _).
    exists (o :: outs). split; [|split; [|split]].
    + rewrite Hs, <- app_assoc. reflexivity.
    + simpl. rewrite Hlen. reflexivity.
    + intros [|i] t' o' Ht' Ho'; cbn [nth_error] in Ht', Ho'.
      * injection Ht' as <-. injection Ho' as <-. split; [exact Hto|].
        apply in_or_app. destruct Hoin as [->|Hoin];
          [right; left; reflexivity|left; exact Hoin].
      * destruct (Hpos i t' o' Ht' Ho') as [Hle Hin]. split; [exact Hle|].
        apply in_app_or in Hin. apply in_or_app.
        destruct Hin as [Hin|Hin].
        -- destruct (Hheap _ Hin) as [->|Hh];
             [right; left; reflexivity|left; exact Hh].
        -- right. right. exact Hin.
    + intros Hsorted o' z Ho' Hz. cbn [nth_error] in Ho'.
      injection Ho' as <-. apply Hoge; assumption.
Qed.

(** Heap selection keeps the largest value of every prefix that reaches
    beyond the heap. *)
Lemma heap_prefix_max (m j : nat) (l : list T) (y : T) :
  m <= length l -> m < j ->
  is_max y (firstn j (heap_partial_sort m l)) <-> is_max y (firstn j l).
Proof.
  intros Hm Hj.
  destruct (Nat.le_gt_cases (length l) j) as [Hlj|Hlj].
  { destruct (heap_partial_sort_contract l Hm) as (Hp & _).
    rewrite !firstn_all2; [|exact Hlj|rewrite <- (Permutation_length Hp);
                                      exact Hlj].
    split; apply is_max_perm; [symmetry|]; exact Hp. }
  assert (Hok : heap_ok (ascending (firstn m l), @nil T)).
  { split; simpl; [apply ascending_sorted|intros ? ? _ []]. }
  destruct (heap_fold_ok (skipn m l) Hok) as ([_ Hb] & Hlen & _).
  destruct (heap_fold_outs (skipn m l) (ascending (firstn m l)) [])
    as (outs & Hs & Hlo & Hpos & Hfirst).
  specialize (Hfirst (ascending_sorted _)).
  unfold heap_partial_sort.
  destruct (fold_left heap_step (skipn m l) (ascending (firstn m l), []))
    as [hF outF].
  cbn [fst snd app] in *. subst outF.
  assert (HhF : length hF = m).
  { rewrite Hlen, ascending_length, length_firstn. lia. }
  assert (HP : length (firstn m l) = m) by (rewrite length_firstn; lia).
  rewrite length_skipn in Hlo.
  assert (EY : firstn j (hF ++ outs) = hF ++ firstn (j - m) outs).
  { rewrite firstn_app, HhF, firstn_all2; [reflexivity|lia]. }
  assert (EL : firstn j l = firstn m l ++ firstn (j - m) (skipn m l)).
  { rewrite <- (firstn_skipn m l) at 1.
    rewrite firstn_app, HP, firstn_all2; [reflexivity|lia]. }
  rewrite EY, EL.
  assert (Hc : 0 < j - m) by lia.
  assert (Hasc : forall z, In z (ascending (firstn m l)) <->
                           In z (firstn m l)).
  { intros z. split; apply Permutation_in;
      [symmetry|]; apply ascending_perm. }
  assert (Hposin : forall i t o,
             i < j - m -> nth_error (skipn m l) i = Some t ->
             nth_error outs i = Some o ->
             In o (firstn m l ++ firstn (j - m) (skipn m l))).
  { intros i t o Hi Ht Ho. destruct (Hpos i t o Ht Ho) as [_ Hin].
    apply in_app_or in Hin. apply in_or_app.
    destruct Hin as [Hin|Hin]; [left; apply Hasc; exact Hin|].
    right. apply (in_firstn_le (skipn m l) (c:=S i)); [lia|exact Hin]. }
  assert (Hsome : forall i, i < j - m ->
             exists t o, nth_error (skipn m l) i = Some t /\
                         nth_error outs i = Some o).
  { intros i Hi.
    destruct (nth_error (skipn m l) i) as [t|] eqn:Et.
    2:{ apply nth_error_None in Et. rewrite length_skipn in Et. lia. }
    destruct (nth_error outs i) as [o|] eqn:Eo.
    2:{ apply nth_error_None in Eo. lia. }
    exists t, o. split; reflexivity. }
  destruct (Hsome 0 Hc) as (t0 & o0 & Ht0 & Ho0).
  assert (D1 : forall z, In z (hF ++ firstn (j - m) outs) ->
             exists w, In w (firstn m l ++ firstn (j - m) (skipn m l)) /\
                       t_le z w).
  { intros z Hz. apply in_app_or in Hz. destruct Hz as [Hz|Hz].
    - exists o0. split; [apply (Hposin 0 t0 o0 Hc Ht0 Ho0)|].
      apply Hb; [exact Hz|]. apply (nth_error_In _ 0). exact Ho0.
    - exists z. split; [|apply t_le_refl].
      apply in_firstn_nth in Hz. destruct Hz as (i & Hi & Hz).
      destruct (Hsome i Hi) as (t & o & Ht & Ho).
      rewrite Hz in Ho. injection Ho as <-.
      apply (Hposin i t z Hi Ht Hz). }
  assert (D2 : forall w, In w (firstn m l ++ firstn (j - m) (skipn m l)) ->
             exists z, In z (hF ++ firstn (j - m) outs) /\ t_le w z).
  { intros w Hw. apply in_app_or in Hw. destruct Hw as [Hw|Hw].
    - exists o0. split.
      + apply in_or_app. right. apply in_firstn_nth. exists 0. auto.
      + apply (Hfirst o0 w Ho0). apply Hasc. exact Hw.
    - apply in_firstn_nth in Hw. destruct Hw as (i & Hi & Hw).
      destruct (Hsome i Hi) as (t & o & Ht & Ho).
      rewrite Hw in Ht. injection Ht as <-.
      exists o. split.
      + apply in_or_app. right. apply in_firstn_nth. exists i. auto.
      + apply (Hpos i w o Hw Ho). }
  split; apply is_max_dominated; assumption.
Qed.

(** **** The sorted prefix of a partial sort *)

Lemma partial_sort_prefix (ps : nat -> list T -> list T) (m : nat)
      (l : list T) :
  partial_sort_contract ps -> m <= length l ->
  firstn m (ps m l) = firstn m (ascending l).
Proof.
  intros Hc Hm. destruct (Hc m l Hm) as (Hp & Hs & Hb).
  assert (E : firstn m (ps m l) ++ ascending (skipn m (ps m l))
              = ascending l).
  { apply sorted_perm_unique.
    - apply sorted_app.
      + apply Sorted_strongly. exact Hs.
      + apply ascending_sorted.
      + intros x y Hx Hy. apply Hb; [exact Hx|].
        eapply Permutation_in; [symmetry; apply ascending_perm|exact Hy].
    - apply ascending_sorted.
    - rewrite <- ascending_perm, firstn_skipn.
      rewrite <- Hp. apply ascending_perm. }
  rewrite <- E. rewrite firstn_app.
  assert (Hl : length (firstn m (ps m l)) = m).
  { rewrite length_firstn, <- (Permutation_length Hp). lia. }
  rewrite Hl, Nat.sub_diag. simpl. rewrite app_nil_r.
  symmetry. apply firstn_all2. lia.
Qed.

Lemma partial_sort_nth (ps : nat -> list T -> list T) (m i : nat)
      (l : list T) :
  partial_sort_contract ps -> m <= length l -> i < m ->
  nth_error (ps m l) i = nth_error (ascending l) i.
Proof.
  intros Hc Hm Hi.
  apply Nat.ltb_lt in Hi.
  pose proof (nth_error_firstn m (ps m l) i) as E1.
  pose proof (nth_error_firstn m (ascending l) i) as E2.
  rewrite Hi in E1, E2. rewrite <- E1, <- E2.
  rewrite (partial_sort_prefix _ Hc Hm). reflexivity.
Qed.

End Order.

(** ** The element types satisfy the order laws *)

#[export] Instance int_order : NumericOrder int.
Proof.
  split; simpl.
  - apply Z.ltb_irrefl.
  - intros x y z Hxy Hyz. apply Z.ltb_lt in Hxy, Hyz. apply Z.ltb_lt. lia.
  - intros x y Hxy Hyx. apply Z.ltb_ge in Hxy, Hyx. lia.
Qed.

#[export] Instance double_order : NumericOrder R.
Proof.
  split; simpl; unfold Rltb.
  - intros x. destruct (Rlt_dec x x); [lra|reflexivity].
  - intros x y z.
    destruct (Rlt_dec x y), (Rlt_dec y z), (Rlt_dec x z);
      try discriminate; try reflexivity; lra.
  - intros x y.
    destruct (Rlt_dec x y), (Rlt_dec y x); try discriminate; lra.
Qed.

Lemma wrap_in_range (z : Z) : in_range (wrap z).
Proof.
  unfold in_range, wrap, int_min, int_max.
  pose proof (Z.mod_pos_bound (z + 2 ^ 31) (2 ^ 32)). lia.
Qed.



Lemma DBL_MIN_pos : (0 < DBL_MIN)%R.
Proof.
  unfold DBL_MIN. apply Rinv_0_lt_compat. apply pow_lt. lra.
Qed.

(** ** The state reached by a sequence of [add] *)

Section Adds.

Context {T : Type} `{Numeric T}.

Lemma adds_snoc (l : list T) (v : T) : adds (l ++ [v]) = add v (adds l).
Proof. unfold adds. rewrite fold_left_app. reflexivity. Qed.

Lemma values_adds (l : list T) : values (adds l) = l.
Proof.
  induction l as [|v l IH] using rev_ind; [reflexivity|].
  rewrite adds_snoc. simpl. rewrite IH. reflexivity.
Qed.


Lemma max_adds (l : list T) : max (adds l) = list_max limits_min l.
Proof.
  induction l as [|v l IH] using rev_ind; [reflexivity|].
  rewrite adds_snoc. unfold list_max. rewrite fold_left_app. simpl.
  rewrite IH. reflexivity.
Qed.

Lemma is_sorted_adds (l : list T) :
  is_sorted (adds l) = match l with [] => true | _ => false end.
Proof.
  destruct l as [|v l] using rev_ind; [reflexivity|].
  rewrite adds_snoc. destruct (l ++ [v]) eqn:E; [|reflexivity].
  destruct l; discriminate.
Qed.

Lemma half_le (n : nat) : n <> 0 -> n / 2 + 1 <= n.
Proof.
  intros Hn. pose proof (Nat.div_lt n 2). lia.
Qed.

End Adds.

(** ** Queries: the cache flag and the frame *)

Section Queries.

Context {T : Type} `{Numeric T}.

Variable ps : nat -> list T -> list T.

Lemma sort_sorted (d : Descriptive) : is_sorted d = true -> sort ps d = d.
Proof. unfold sort. intros ->. reflexivity. Qed.

Lemma is_sorted_sort (d : Descriptive) : is_sorted (sort ps d) = true.
Proof. unfold sort. destruct (is_sorted d) eqn:E; [exact E|reflexivity]. Qed.

Lemma sort_idem (d : Descriptive) : sort ps (sort ps d) = sort ps d.
Proof. apply sort_sorted, is_sorted_sort. Qed.

Lemma is_sorted_add (v : T) (d : Descriptive) : is_sorted (add v d) = false.
Proof. reflexivity. Qed.

Lemma valid_ctor : valid ctor.
Proof. intros E. discriminate. Qed.

Lemma valid_add (v : T) (d : Descriptive) : valid (add v d).
Proof. intros _. simpl. destruct (values d); discriminate. Qed.

Lemma valid_sort (d : Descriptive) : valid (sort ps d).
Proof. intros E. rewrite is_sorted_sort in E. discriminate. Qed.

(** A query leaves the accumulator as it is or as [sort()] leaves it. *)
Lemma query_state (k : query) (d : Descriptive) :
  snd (run_query ps k d) = d \/ snd (run_query ps k d) = sort ps d.
Proof.
  destruct k; cbn [run_query snd]; auto.
  - unfold get_median. destruct (Nat.eqb (length (values d)) 0); auto.
    cbv zeta. destruct (Nat.eqb _ 0); auto.
  - unfold render, get_min. destruct (negb _); auto.
    cbv zeta. destruct (nth_error (values (sort ps d)) 0); auto.
Qed.

Lemma query_on_sorted (k : query) (d : Descriptive) :
  is_sorted d = true -> snd (run_query ps k d) = d.
Proof.
  intros Hs. destruct (query_state k d) as [E|E]; rewrite E; [reflexivity|].
  apply sort_sorted. exact Hs.
Qed.

Lemma valid_query (k : query) (d : Descriptive) :
  valid d -> valid (snd (run_query ps k d)).
Proof.
  intros Hv. destruct (query_state k d) as [E|E]; rewrite E;
    [exact Hv|apply valid_sort].
Qed.

Lemma valid_step (d : Descriptive) (o : op) : valid d -> valid (step ps d o).
Proof.
  destruct o as [v|k]; simpl; intros Hv;
    [apply valid_add|apply valid_query; exact Hv].
Qed.

Lemma valid_run (ops : list (op (T:=T))) : valid (run ps ops).
Proof.
  unfold run. induction ops as [|o ops IH] using rev_ind;
    [apply valid_ctor|].
  rewrite fold_left_app. simpl. apply valid_step. exact IH.
Qed.

Hypothesis ps_ok : partial_sort_contract ps.

(** [sort()] changes the order of the values and the flag, nothing else. *)
Lemma sort_frame (d : Descriptive) :
  valid d ->
  sum (sort ps d) = sum d /\ max (sort ps d) = max d /\
  a (sort ps d) = a d /\ q (sort ps d) = q d /\
  Permutation (values d) (values (sort ps d)).
Proof.
  intros Hv. unfold sort. destruct (is_sorted d) eqn:E.
  - repeat split; reflexivity.
  - simpl. repeat split.
    assert (Hn : length (values d) <> 0).
    { specialize (Hv E). destruct (values d);
        [contradiction|discriminate]. }
    apply (ps_ok (values d) (half_le Hn)).
Qed.

Lemma sort_length (d : Descriptive) :
  valid d -> length (values (sort ps d)) = length (values d).
Proof.
  intros Hv. symmetry. apply Permutation_length, sort_frame. exact Hv.
Qed.

(** After [sort()] every query answers as it would have answered before. *)
Lemma query_after_sort (k : query) (d : Descriptive) :
  valid d ->
  run_query ps k (sort ps d) = (fst (run_query ps k d), sort ps d).
Proof.
  intros Hv.
  destruct (sort_frame Hv) as (Hsum & Hmax & Ha & Hq & _).
  pose proof (sort_length Hv) as Hlen.
  destruct k; cbn [run_query fst].
  - unfold get_count. rewrite Hlen. reflexivity.
  - unfold get_sum. rewrite Hsum. reflexivity.
  - unfold get_min. rewrite sort_idem. reflexivity.
  - unfold get_max. rewrite Hmax. reflexivity.
  - unfold get_mean. rewrite Hsum, Hlen. reflexivity.
  - unfold get_median. rewrite sort_idem, !Hlen.
    destruct (Nat.eqb (length (values d)) 0); [reflexivity|].
    cbv zeta. destruct (Nat.eqb (length (values d) mod 2) 0); reflexivity.
  - unfold get_standard_deviation. rewrite Hq, Hlen. reflexivity.
  - unfold render, get_count, get_min. rewrite sort_idem, !Hlen.
    destruct (negb _); [|reflexivity].
    cbv zeta. destruct (nth_error (values (sort ps d)) 0); reflexivity.
Qed.

Lemma run_queries_state (ks : list query) (d : Descriptive) :
  run_queries ps ks d = d \/ run_queries ps ks d = sort ps d.
Proof.
  unfold run_queries. induction ks as [|k ks IH] using rev_ind;
    [left; reflexivity|].
  rewrite fold_left_app. cbn [fold_left].
  destruct IH as [-> | ->].
  - apply query_state.
  - right. apply query_on_sorted, is_sorted_sort.
Qed.

Lemma added_app (ops1 ops2 : list (op (T:=T))) :
  added (ops1 ++ ops2) = added ops1 ++ added ops2.
Proof.
  induction ops1 as [|[v|k] ops1 IH]; simpl; [reflexivity| |exact IH].
  rewrite IH. reflexivity.
Qed.

(** Whatever queries a program makes between its [add]s, it accumulates
    what the [add]s alone accumulate, with the same values in some order. *)
Lemma run_frame (ops : list op) :
  sum (run ps ops) = sum (adds (added ops)) /\
  max (run ps ops) = max (adds (added ops)) /\
  a (run ps ops) = a (adds (added ops)) /\
  q (run ps ops) = q (adds (added ops)) /\
  Permutation (added ops) (values (run ps ops)).
Proof.
  induction ops as [|o ops (Hsum & Hmax & Ha & Hq & Hp)] using rev_ind.
  - repeat split; reflexivity.
  - unfold run in *. rewrite fold_left_app, added_app. cbn [fold_left].
    fold (run ps ops) in *. pose proof (valid_run ops) as Hv.
    destruct o as [v|k]; cbn [step added].
    + rewrite adds_snoc. unfold add. cbn [sum max a q values].
      rewrite Hsum, Hmax, Ha, Hq, values_adds, !length_app.
      rewrite <- (Permutation_length Hp).
      repeat split. apply Permutation_app_tail. exact Hp.
    + rewrite app_nil_r.
      destruct (query_state k (run ps ops)) as [-> | ->];
        [repeat split; assumption|].
      destruct (sort_frame Hv) as (-> & -> & -> & -> & Hp').
      repeat split; try assumption.
      rewrite <- Hp'. exact Hp.
Qed.

(** A query leaves the accumulator as [sort()] leaves it when its body
    reaches [sort()], and as it is otherwise. *)
Lemma query_state_exact (k : query) (d : Descriptive) :
  snd (run_query ps k d) = if calls_sort k d then sort ps d else d.
Proof.
  destruct k; cbn [run_query snd calls_sort]; try reflexivity.
  - unfold get_median. destruct (Nat.eqb (length (values d)) 0);
      cbn [negb]; [reflexivity|].
    cbv zeta. destruct (Nat.eqb _ 0); reflexivity.
  - unfold render, get_min. destruct (negb _); [|reflexivity].
    cbv zeta. destruct (nth_error (values (sort ps d)) 0); reflexivity.
Qed.

(** With the flag set a query does not depend on the partial sort at all,
    and it leaves the accumulator as it is. *)
Lemma query_flag_set (ps' : nat -> list T -> list T) (k : query)
      (d : Descriptive) :
  is_sorted d = true ->
  run_query ps' k d = run_query ps k d /\ snd (run_query ps k d) = d.
Proof.
  intros Hs.
  assert (E : forall f, sort f d = d)
    by (intros f; unfold sort; rewrite Hs; reflexivity).
  split; [|apply query_on_sorted; exact Hs].
  destruct k; cbn [run_query]; try reflexivity;
    unfold render, get_median, get_min; rewrite !E; reflexivity.
Qed.

(** A query whose body does not reach [sort()] does not depend on the
    partial sort. *)
Lemma query_no_sort (ps' : nat -> list T -> list T) (k : query)
      (d : Descriptive) :
  calls_sort k d = false -> run_query ps' k d = run_query ps k d.
Proof.
  destruct k; cbn [run_query calls_sort]; try reflexivity.
  - discriminate.
  - unfold get_median. destruct (Nat.eqb (length (values d)) 0);
      [reflexivity|discriminate].
  - unfold render. destruct (negb _); [discriminate|reflexivity].
Qed.

Lemma queries_flag_set (ps' : nat -> list T -> list T) (ks : list query)
      (d : Descriptive) :
  is_sorted d = true -> run_queries ps' ks d = d.
Proof.
  intros Hs. unfold run_queries.
  induction ks as [|k ks IH] using rev_ind; [reflexivity|].
  rewrite fold_left_app. cbn [fold_left]. rewrite IH.
  destruct (query_flag_set ps' k d Hs) as [-> Hd]. exact Hd.
Qed.

(** C8.  In every state a program can reach, a query repeated at once
    gives the answer of the first call and leaves the accumulator as the
    first call left it, and the repeated call does not run the partial
    sort: it gives the same with any other function in its place.  [add]
    clears [is_sorted]; a query whose body reaches [sort()] leaves the
    accumulator as [sort()] leaves it, with [is_sorted] set, and any other
    query leaves it as it is: once a value was added, [get_min()],
    [get_median()] and the insertion operator (when [get_count()] is not
    0) leave the flag set.  With the flag set [sort()] returns the
    accumulator untouched, and so do all the queries that follow, none of
    which runs the partial sort: between two [add] it runs at most once. *)
Theorem query_idempotent (ops : list op) (k : query) :
  run_query ps k (snd (run_query ps k (run ps ops)))
    = run_query ps k (run ps ops) /\
  (forall v, is_sorted (add v (run ps ops)) = false) /\
  is_sorted (sort ps (run ps ops)) = true /\
  sort ps (sort ps (run ps ops)) = sort ps (run ps ops) /\
  (forall d, is_sorted d = true -> sort ps d = d) /\
  (forall ps',
      run_query ps' k (snd (run_query ps k (run ps ops)))
      = run_query ps k (run ps ops)) /\
  (forall d,
      snd (run_query ps k d) = if calls_sort k d then sort ps d else d) /\
  (forall d, calls_sort k d = true ->
             is_sorted (snd (run_query ps k d)) = true) /\
  (added ops <> [] ->
   k = QMin \/ k = QMedian \/
   (k = QRender /\ get_count (run ps ops) <> 0%Z) ->
   is_sorted (snd (run_query ps k (run ps ops))) = true) /\
  (forall ps' d ks k2,
      is_sorted d = true ->
      run_queries ps' ks d = d /\
      run_query ps' k2 d = run_query ps k2 d /\
      snd (run_query ps k2 d) = d).
Proof.
  pose proof (valid_run ops) as Hv.
  assert (Hrep : forall ps',
             run_query ps' k (snd (run_query ps k (run ps ops)))
             = run_query ps k (run ps ops)).
  { intros ps'. pose proof (query_state_exact k (run ps ops)) as E.
    destruct (calls_sort k (run ps ops)) eqn:Ec.
    - rewrite E.
      destruct (query_flag_set ps' k _ (is_sorted_sort (run ps ops)))
        as [-> _].
      rewrite (query_after_sort k Hv).
      destruct (run_query ps k (run ps ops)) as [r d1]. simpl in *.
      rewrite E. reflexivity.
    - rewrite E. apply query_no_sort. exact Ec. }
  split; [apply Hrep|]. split; [intros v; reflexivity|].
  split; [apply is_sorted_sort|]. split; [apply sort_idem|].
  split; [apply sort_sorted|]. split; [exact Hrep|].
  split; [apply query_state_exact|]. split; [|split].
  - intros d Ec. rewrite query_state_exact, Ec. apply is_sorted_sort.
  - intros Hl Hk. rewrite query_state_exact.
    assert (Ec : calls_sort k (run ps ops) = true).
    { destruct Hk as [-> | [-> | [-> Hc]]]; cbn [calls_sort].
      - reflexivity.
      - destruct (run_frame ops) as (_ & _ & _ & _ & Hp).
        destruct (values (run ps ops)) as [|x l]; [|reflexivity].
        exfalso. apply Hl. apply Permutation_nil.
        apply Permutation_sym. exact Hp.
      - apply Z.eqb_neq in Hc. rewrite Hc. reflexivity. }
    rewrite Ec. apply is_sorted_sort.
  - intros ps' d ks k2 Hs.
    split; [apply queries_flag_set; exact Hs|].
    apply query_flag_set. exact Hs.
Qed.

(** A query leaves [sum], [max], [a], [q] and the number of values as
    they are, and the values the same up to their order. *)
Lemma query_keeps (d : Descriptive) (k : query) :
  valid d ->
  let d' := snd (run_query ps k d) in
  sum d' = sum d /\ max d' = max d /\ a d' = a d /\ q d' = q d /\
  length (values d') = length (values d) /\
  Permutation (values d) (values d').
Proof.
  intros Hv d'.
  destruct (query_state k d) as [E|E]; unfold d'; rewrite E.
  - repeat split; reflexivity.
  - destruct (sort_frame Hv) as (Hsum & Hmax & Ha & Hq & Hp).
    repeat split; try assumption.
    symmetry. apply Permutation_length. exact Hp.
Qed.

(** Until the next [add], a query made after other queries answers as it
    would have answered before them. *)
Lemma later_query (d : Descriptive) (ks : list query) (k : query) :
  valid d ->
  fst (run_query ps k (run_queries ps ks d)) = fst (run_query ps k d).
Proof.
  intros Hv. destruct (run_queries_state ks d) as [-> | ->];
    [reflexivity|].
  rewrite (query_after_sort k Hv). reflexivity.
Qed.

End Queries.

(** ** Order statistics: minimum, median, maximum *)

Section OrderStatistics.

Context {T : Type} `{Numeric T} `{!NumericOrder T}.

Variable ps : nat -> list T -> list T.
Hypothesis ps_ok : partial_sort_contract ps.

Lemma ps_length (m : nat) (l : list T) :
  m <= length l -> length (ps m l) = length l.
Proof.
  intros Hm. destruct (ps_ok l Hm) as [Hp _].
  symmetry. apply Permutation_length. exact Hp.
Qed.

Lemma sort_adds (l : list T) :
  l <> [] ->
  sort ps (adds l) =
  mkDescriptive (sum (adds l)) (max (adds l))
                (ps (length l / 2 + 1) l) (a (adds l)) (q (adds l)) true.
Proof.
  intros Hl. unfold sort. rewrite is_sorted_adds, values_adds.
  destruct l; [contradiction|reflexivity].
Qed.

Lemma ascending_head_min (l : list T) (m : T) :
  nth_error (ascending l) 0 = Some m ->
  In m l /\ (forall y, In y l -> t_le m y).
Proof.
  intros Hm. pose proof (ascending_sorted l) as Hs.
  pose proof (ascending_perm l) as Hp.
  destruct (ascending l) as [|x s]; [discriminate|].
  injection Hm as ->. split.
  - eapply Permutation_in; [symmetry; exact Hp|left; reflexivity].
  - intros y Hy. apply (Permutation_in _ Hp) in Hy.
    destruct Hy as [<-|Hy]; [apply t_le_refl|].
    inversion Hs as [|? ? _ Hall]; subst.
    rewrite Forall_forall in Hall. apply Hall. exact Hy.
Qed.

Lemma get_min_adds (l : list T) :
  l <> [] -> fst (get_min ps (adds l)) = nth_error (ascending l) 0.
Proof.
  intros Hl. unfold get_min. rewrite (sort_adds Hl). cbn [values fst].
  assert (Hn : length l <> 0) by (destruct l; [contradiction|discriminate]).
  apply partial_sort_nth; [exact ps_ok|apply half_le; exact Hn|lia].
Qed.

Lemma get_median_adds_odd (l : list T) :
  Nat.odd (length l) = true ->
  fst (get_median ps (adds l)) =
  match nth_error (ascending l) (length l / 2) with
  | Some x => Some (Fin (to_double x))
  | None => None
  end.
Proof.
  intros Hodd.
  assert (Hn : length l <> 0) by (intros E; rewrite E in Hodd; discriminate).
  assert (Hl : l <> []) by (intros ->; apply Hn; reflexivity).
  unfold get_median. rewrite values_adds.
  destruct (Nat.eqb_spec (length l) 0) as [E|_]; [contradiction|].
  rewrite (sort_adds Hl). cbn [values fst].
  rewrite (ps_length l (half_le Hn)).
  assert (Hmod : length l mod 2 = 1).
  { rewrite <- Nat.bit0_mod. unfold Nat.odd in Hodd.
    rewrite Nat.bit0_odd. unfold Nat.odd. rewrite Hodd. reflexivity. }
  rewrite Hmod. cbn [Nat.eqb fst].
  rewrite (partial_sort_nth l ps_ok (half_le Hn)); [reflexivity|lia].
Qed.

(** The even branch: the first element read is in the sorted prefix, the
    second one lies one position beyond it. *)
Lemma get_median_adds_even (l : list T) :
  l <> [] -> Nat.even (length l) = true ->
  fst (get_median ps (adds l)) =
  match nth_error (ascending l) (length l / 2),
        nth_error (ps (length l / 2 + 1) l) (length l / 2 + 1) with
  | Some x, Some y => Some (Fin (to_double (t_plus x y) / 2))
  | _, _ => None
  end.
Proof.
  intros Hl Heven.
  assert (Hn : length l <> 0) by (destruct l; [contradiction|discriminate]).
  unfold get_median. rewrite values_adds.
  destruct (Nat.eqb_spec (length l) 0) as [E|_]; [contradiction|].
  rewrite (sort_adds Hl). cbn [values fst].
  rewrite (ps_length l (half_le Hn)).
  assert (Hmod : length l mod 2 = 0).
  { rewrite <- Nat.bit0_mod. rewrite Nat.bit0_odd.
    rewrite <- Nat.negb_even, Heven. reflexivity. }
  rewrite Hmod. cbn [Nat.eqb fst].
  rewrite (partial_sort_nth l ps_ok (half_le Hn)); [reflexivity|lia].
Qed.

(** *** The cache invariant *)

Lemma ascending_permutation (l l' : list T) :
  Permutation l l' -> ascending l = ascending l'.
Proof.
  intros Hp. apply sorted_perm_unique; try apply ascending_sorted.
  rewrite <- !ascending_perm. exact Hp.
Qed.

Lemma cached_sort (d : Descriptive) :
  valid d -> cached d -> cached (sort ps d).
Proof.
  intros Hv Hc. unfold sort. destruct (is_sorted d) eqn:E; [exact Hc|].
  intros _. cbn [values].
  assert (Hn : length (values d) <> 0).
  { specialize (Hv E). destruct (values d); [contradiction|discriminate]. }
  pose proof (half_le Hn) as Hm.
  destruct (ps_ok (values d) Hm) as (Hp & _).
  rewrite (ps_length _ Hm).
  rewrite <- (ascending_permutation Hp).
  apply partial_sort_prefix; assumption.
Qed.

Lemma cached_query (k : query) (d : Descriptive) :
  valid d -> cached d -> cached (snd (run_query ps k d)).
Proof.
  intros Hv Hc. destruct (query_state ps k d) as [-> | ->];
    [exact Hc|apply cached_sort; assumption].
Qed.

Lemma cached_run (ops : list op) : cached (run ps ops).
Proof.
  induction ops as [|o ops IH] using rev_ind.
  - intros _. reflexivity.
  - unfold run in *. rewrite fold_left_app. cbn [fold_left].
    destruct o as [v|k]; cbn [step].
    + intros E. discriminate.
    + apply cached_query; [apply valid_run|exact IH].
Qed.

(** After any program that adds a value, [sort()] leaves the values in
    the sorted prefix that the added values have in ascending order. *)
Lemma sort_run (ops : list op) :
  added ops <> [] ->
  length (values (sort ps (run ps ops))) = length (added ops) /\
  firstn (length (added ops) / 2 + 1) (values (sort ps (run ps ops)))
  = firstn (length (added ops) / 2 + 1) (ascending (added ops)).
Proof.
  intros Hl.
  destruct (run_frame ps_ok ops) as (_ & _ & _ & _ & Hp).
  pose proof (valid_run ps ops) as Hv.
  pose proof (cached_sort Hv (cached_run ops)) as Hc.
  pose proof (sort_frame ps_ok Hv) as (_ & _ & _ & _ & Hp').
  assert (Hps : Permutation (added ops) (values (sort ps (run ps ops))))
    by (rewrite <- Hp'; exact Hp).
  pose proof (Permutation_length Hps) as Hlen.
  split; [symmetry; exact Hlen|].
  specialize (Hc (is_sorted_sort ps _)).
  rewrite <- Hlen in Hc. rewrite Hc.
  rewrite (ascending_permutation Hps). reflexivity.
Qed.

Lemma sort_run_nth (ops : list op) (i : nat) :
  added ops <> [] -> i < length (added ops) / 2 + 1 ->
  nth_error (values (sort ps (run ps ops))) i
  = nth_error (ascending (added ops)) i.
Proof.
  intros Hl Hi. destruct (sort_run ops Hl) as [_ Hpre].
  apply Nat.ltb_lt in Hi.
  pose proof (nth_error_firstn (length (added ops) / 2 + 1)
                (values (sort ps (run ps ops))) i) as E1.
  pose proof (nth_error_firstn (length (added ops) / 2 + 1)
                (ascending (added ops)) i) as E2.
  rewrite Hi in E1, E2. rewrite <- E1, <- E2, Hpre. reflexivity.
Qed.

Lemma get_min_run (ops : list op) :
  added ops <> [] ->
  fst (get_min ps (run ps ops)) = nth_error (ascending (added ops)) 0.
Proof.
  intros Hl. unfold get_min. cbn [fst].
  apply (sort_run_nth ops); [exact Hl|lia].
Qed.

Lemma odd_mod2 (n : nat) : Nat.odd n = true -> n mod 2 = 1.
Proof.
  intros Hodd. rewrite <- Nat.bit0_mod, Nat.bit0_odd, Hodd. reflexivity.
Qed.

Lemma get_median_run_odd (ops : list op) :
  Nat.odd (length (added ops)) = true ->
  fst (get_median ps (run ps ops)) =
  match nth_error (ascending (added ops)) (length (added ops) / 2) with
  | Some x => Some (Fin (to_double x))
  | None => None
  end.
Proof.
  intros Hodd.
  assert (Hl : added ops <> [])
    by (intros E; rewrite E in Hodd; discriminate).
  destruct (run_frame ps_ok ops) as (_ & _ & _ & _ & Hp).
  destruct (sort_run ops Hl) as [Hlen _].
  unfold get_median. rewrite <- (Permutation_length Hp).
  destruct (Nat.eqb_spec (length (added ops)) 0) as [E|_].
  { rewrite E in Hodd. discriminate. }
  cbv zeta. rewrite Hlen, (odd_mod2 _ Hodd). cbn [Nat.eqb fst].
  rewrite (sort_run_nth ops Hl); [reflexivity|lia].
Qed.

(** *** Answers at the end of a program *)

Lemma run_adds (l : list T) : run ps (map (@Add T) l) = adds l.
Proof.
  unfold run, adds. generalize (@ctor T _).
  induction l as [|v l IH]; intros d; [reflexivity|].
  simpl. apply IH.
Qed.

Lemma getters_run (ops : list op) :
  get_count (run ps ops) = get_count (adds (added ops)) /\
  get_sum (run ps ops) = get_sum (adds (added ops)) /\
  get_max (run ps ops) = get_max (adds (added ops)) /\
  get_mean (run ps ops) = get_mean (adds (added ops)) /\
  get_standard_deviation (run ps ops)
  = get_standard_deviation (adds (added ops)).
Proof.
  destruct (run_frame ps_ok ops) as (Hsum & Hmax & _ & Hq & Hp).
  apply Permutation_length in Hp.
  unfold get_count, get_sum, get_max, get_mean, get_standard_deviation.
  rewrite Hsum, Hmax, Hq, values_adds, <- Hp. repeat split.
Qed.

Lemma get_min_program (ops : list op) :
  fst (get_min ps (run ps ops)) = fst (get_min ps (adds (added ops))).
Proof.
  destruct (added ops) as [|v l] eqn:E.
  - destruct (run_frame ps_ok ops) as (_ & _ & _ & _ & Hp).
    pose proof (sort_frame ps_ok (valid_run ps ops)) as (_ & _ & _ & _ & Hp').
    rewrite E in Hp. pose proof (Permutation_trans Hp Hp') as Hn.
    apply Permutation_nil in Hn.
    unfold get_min. cbn [fst]. rewrite Hn. reflexivity.
  - assert (Hl : added ops <> []) by (rewrite E; discriminate).
    rewrite (get_min_run ops Hl), <- E, (get_min_adds Hl). reflexivity.
Qed.

(** The items of [render] by the values of the accumulator it is given. *)
Lemma render_items (d : Descriptive) :
  valid d ->
  fst (render ps d) =
  if negb (Z.eqb (get_count d) 0) then
    match fst (get_min ps d) with
    | Some m =>
        Some [OInt (get_count d); OChar tab; OVal m; OChar tab;
              ODouble (get_mean d); OChar tab; OVal (get_max d);
              OChar tab; ODouble (get_standard_deviation d)]
    | None => None
    end
  else Some [OStr empty_line].
Proof.
  intros Hv. destruct (sort_frame ps_ok Hv) as (Hsum & Hmax & _ & Hq & _).
  pose proof (sort_length ps_ok Hv) as Hlen.
  unfold render. destruct (negb _); [|reflexivity].
  unfold get_min. cbn [fst].
  destruct (nth_error (values (sort ps d)) 0); [|reflexivity].
  unfold get_count, get_mean, get_max, get_standard_deviation.
  cbn [fst]. rewrite Hsum, Hmax, Hq, Hlen. reflexivity.
Qed.

(** At the end of a program every query but the median of an even number
    of values answers as if the program had made no query. *)
Lemma program_answer (ops : list op) (k : query) :
  (k = QMedian -> Nat.odd (length (added ops)) = true) ->
  fst (run_query ps k (run ps ops))
  = fst (run_query ps k (adds (added ops))).
Proof.
  intros Hk.
  destruct (getters_run ops) as (Hcount & Hsum & Hmax & Hmean & Hsd).
  pose proof (get_min_program ops) as Hmin.
  destruct k; cbn [run_query fst].
  - rewrite Hcount. reflexivity.
  - rewrite Hsum. reflexivity.
  - destruct (get_min ps (run ps ops)), (get_min ps (adds (added ops))).
    cbn [fst] in *. rewrite Hmin. reflexivity.
  - rewrite Hmax. reflexivity.
  - rewrite Hmean. reflexivity.
  - specialize (Hk eq_refl).
    pose proof (get_median_run_odd ops Hk) as E1.
    pose proof (get_median_adds_odd (added ops) Hk) as E2.
    destruct (get_median ps (run ps ops)),
             (get_median ps (adds (added ops))).
    cbn [fst] in *. rewrite E1, E2. reflexivity.
  - rewrite Hsd. reflexivity.
  - pose proof (render_items (valid_run ps ops)) as E1.
    pose proof (render_items (valid_run ps (map (@Add T) (added ops)))) as E2.
    rewrite run_adds in E2.
    destruct (render ps (run ps ops)), (render ps (adds (added ops))).
    cbn [fst] in *. rewrite E1, E2, Hcount, Hmin, Hmean, Hmax, Hsd.
    reflexivity.
Qed.

Lemma even_mod2 (n : nat) : Nat.even n = true -> n mod 2 = 0.
Proof.
  intros Heven.
  rewrite <- Nat.bit0_mod, Nat.bit0_odd, <- Nat.negb_even, Heven.
  reflexivity.
Qed.

Lemma get_median_run_even (ops : list op) :
  added ops <> [] -> Nat.even (length (added ops)) = true ->
  fst (get_median ps (run ps ops)) =
  match nth_error (ascending (added ops)) (length (added ops) / 2),
        nth_error (values (sort ps (run ps ops)))
                  (length (added ops) / 2 + 1) with
  | Some x, Some y => Some (Fin (to_double (t_plus x y) / 2))
  | _, _ => None
  end.
Proof.
  intros Hl Heven.
  destruct (run_frame ps_ok ops) as (_ & _ & _ & _ & Hp).
  destruct (sort_run ops Hl) as [Hlen _].
  unfold get_median. rewrite <- (Permutation_length Hp).
  destruct (Nat.eqb_spec (length (added ops)) 0) as [E|_].
  { destruct (added ops); [contradiction|discriminate]. }
  cbv zeta. rewrite Hlen, (even_mod2 _ Heven). cbn [Nat.eqb fst].
  rewrite (sort_run_nth ops Hl); [reflexivity|lia].
Qed.

(** C3.  For every non-empty sequence [l] of added values, in any order,
    [get_min()] returns a value of the sequence that no other value of
    the sequence is smaller than, the first of the values in ascending
    order: the minimum.  So does it at the end of any program that adds
    the values of [l], whatever queries the program makes in between. *)
Theorem get_min_minimum (l : list T) :
  l <> [] ->
  exists m, nth_error (ascending l) 0 = Some m /\
            In m l /\ (forall y, In y l -> t_le m y) /\
            fst (get_min ps (adds l)) = Some m /\
            (forall ops, added ops = l ->
                         fst (get_min ps (run ps ops)) = Some m).
Proof.
  intros Hl.
  destruct (nth_error (ascending l) 0) as [m|] eqn:E.
  - exists m. destruct (ascending_head_min l E) as [Hin Hlow].
    repeat split; try assumption.
    + rewrite (get_min_adds Hl). exact E.
    + intros ops Hops. subst l. rewrite (get_min_run ops Hl). exact E.
  - exfalso. apply nth_error_None in E.
    rewrite ascending_length in E.
    destruct l; [contradiction|simpl in E; lia].
Qed.

(** C4.  For every sequence [l] of added values of odd count, in any
    order, [get_median()] returns the value at zero-based index
    [count / 2] of the values in ascending order, which has [count / 2]
    values on either side: the middle one.  So does it at the end of any
    program that adds the values of [l]. *)
Theorem get_median_odd (l : list T) :
  Nat.odd (length l) = true ->
  exists x, nth_error (ascending l) (length l / 2) = Some x /\
            length (firstn (length l / 2) (ascending l)) = length l / 2 /\
            length (skipn (length l / 2 + 1) (ascending l)) = length l / 2 /\
            fst (get_median ps (adds l)) = Some (Fin (to_double x)) /\
            (forall ops, added ops = l ->
               fst (get_median ps (run ps ops)) = Some (Fin (to_double x))).
Proof.
  intros Hodd.
  assert (Hn : length l = 2 * (length l / 2) + 1).
  { pose proof (Nat.div_mod_eq (length l) 2) as E.
    rewrite (odd_mod2 _ Hodd) in E. lia. }
  destruct (nth_error (ascending l) (length l / 2)) as [x|] eqn:E.
  - exists x. split; [reflexivity|]. split; [|split; [|split]].
    + rewrite length_firstn, ascending_length. lia.
    + rewrite length_skipn, ascending_length. lia.
    + rewrite (get_median_adds_odd l Hodd), E. reflexivity.
    + intros ops Hops. subst l.
      rewrite (get_median_run_odd ops Hodd), E. reflexivity.
  - exfalso. apply nth_error_None in E. rewrite ascending_length in E. lia.
Qed.

End OrderStatistics.

(** ** Heap selection: the position read beyond the sorted prefix *)

Section HeapHistory.

Context {T : Type} `{Numeric T} `{!NumericOrder T}.

Local Abbreviation hps := (heap_partial_sort (T:=T)).

Lemma run_sort (ops : list (op (T:=T))) :
  run hps (ops ++ [Query QMin]) = sort hps (run hps ops).
Proof.
  unfold run. rewrite fold_left_app. reflexivity.
Qed.

(** Under heap selection the values held by the accumulator and the values
    added have the same largest values in every long enough prefix. *)
Lemma heap_run_prefix_max (ops : list op) :
  same_prefix_max (length (added ops)) (values (run hps ops)) (added ops).
Proof.
  induction ops as [|o ops IH] using rev_ind.
  - intros j y _. reflexivity.
  - destruct (run_frame (ps:=hps) heap_partial_sort_contract ops)
      as (_ & _ & _ & _ & Hp).
    pose proof (Permutation_length Hp) as Hlen.
    pose proof (valid_run hps ops) as Hv.
    unfold run in *. rewrite fold_left_app, added_app. cbn [fold_left].
    fold (run hps ops) in *.
    destruct o as [v|k]; cbn [step added].
    + unfold add. cbn [values]. rewrite length_app. cbn [length].
      intros j y Hj.
      destruct (Nat.le_gt_cases j (length (added ops))) as [Hjk|Hjk].
      * rewrite !firstn_app.
        replace (j - length (values (run hps ops))) with 0 by lia.
        replace (j - length (added ops)) with 0 by lia.
        cbn [firstn]. rewrite !app_nil_r. apply IH.
        pose proof (Nat.Div0.div_le_mono (length (added ops))
                      (length (added ops) + 1) 2). lia.
      * rewrite !firstn_all2; try (rewrite length_app; cbn [length]; lia).
        split; apply is_max_perm; [symmetry|];
          apply Permutation_app_tail; exact Hp.
    + rewrite app_nil_r.
      destruct (query_state hps k (run hps ops)) as [-> | ->];
        [exact IH|].
      unfold sort. destruct (is_sorted (run hps ops)) eqn:E; [exact IH|].
      cbn [values]. intros j y Hj.
      assert (Hn : length (values (run hps ops)) <> 0).
      { specialize (Hv E). destruct (values (run hps ops));
          [contradiction|discriminate]. }
      rewrite <- (IH j y Hj). rewrite Hlen in Hj.
      apply heap_prefix_max; [apply half_le; exact Hn|exact Hj].
Qed.

(** In a list whose first [m] positions hold its [m] smallest values, the
    next position holds a largest value of the first [m + 1]. *)
Lemma prefix_next_max (V : list T) (m : nat) (y : T) :
  firstn m V = firstn m (ascending V) ->
  nth_error V m = Some y ->
  is_max y (firstn (S m) V).
Proof.
  intros Hpre Hy.
  assert (Hy' : In y (skipn m V)).
  { apply (nth_error_In _ 0). rewrite nth_error_skipn, Nat.add_0_r.
    exact Hy. }
  assert (Hperm : Permutation (skipn m V) (skipn m (ascending V))).
  { apply (Permutation_app_inv_l (firstn m V)).
    rewrite firstn_skipn. rewrite Hpre at 1. rewrite firstn_skipn.
    apply ascending_perm. }
  split.
  - apply in_firstn_nth. exists m. split; [lia|exact Hy].
  - intros z Hz. apply in_firstn_nth in Hz. destruct Hz as (i & Hi & Hz).
    destruct (Nat.eq_dec i m) as [->|Hne].
    + rewrite Hy in Hz. injection Hz as <-. apply t_le_refl.
    + assert (Hz' : In z (firstn m (ascending V))).
      { rewrite <- Hpre. apply in_firstn_nth. exists i. split; [lia|auto]. }
      apply (sorted_app_inv (firstn m (ascending V))
                            (skipn m (ascending V))).
      * rewrite firstn_skipn. apply ascending_sorted.
      * exact Hz'.
      * eapply Permutation_in; [exact Hperm|exact Hy'].
Qed.

Lemma heap_tail_read (ops : list op) :
  added ops <> [] ->
  nth_error (values (sort hps (run hps ops))) (length (added ops) / 2 + 1)
  = if Nat.ltb (length (added ops) / 2 + 1) (length (added ops))
    then maximum (firstn (length (added ops) / 2 + 2) (added ops))
    else None.
Proof.
  intros Hl.
  destruct (sort_run (ps:=hps) heap_partial_sort_contract ops Hl)
    as [Hlen _].
  destruct (Nat.ltb_spec (length (added ops) / 2 + 1) (length (added ops)))
    as [Hlt|Hge].
  2:{ apply nth_error_None. rewrite Hlen. exact Hge. }
  destruct (nth_error (values (sort hps (run hps ops)))
                      (length (added ops) / 2 + 1)) as [y|] eqn:Ey.
  2:{ apply nth_error_None in Ey. lia. }
  symmetry. apply maximum_is_max.
  pose proof (cached_sort heap_partial_sort_contract
                (valid_run hps ops)
                (cached_run heap_partial_sort_contract ops)) as Hc.
  unfold cached in Hc.
  specialize (Hc (is_sorted_sort hps _)). rewrite Hlen in Hc.
  pose proof (prefix_next_max _ _ Hc Ey) as Hmax.
  rewrite <- run_sort in Hmax.
  replace (length (added ops) / 2 + 2)
    with (S (length (added ops) / 2 + 1)) by lia.
  pose proof (heap_run_prefix_max (ops ++ [Query QMin])) as Hinv.
  rewrite added_app in Hinv. cbn [added] in Hinv. rewrite app_nil_r in Hinv.
  apply Hinv; [lia|exact Hmax].
Qed.

(** Under heap selection the median of an even number of values is the
    half of the sum of the value at index [count / 2] of the ascending
    order and the largest of the first [count / 2 + 2] values added; with
    two values the second read is outside the vector. *)
Lemma heap_median_even (ops : list op) :
  added ops <> [] -> Nat.even (length (added ops)) = true ->
  fst (get_median hps (run hps ops)) =
  match nth_error (ascending (added ops)) (length (added ops) / 2),
        (if Nat.ltb (length (added ops) / 2 + 1) (length (added ops))
         then maximum (firstn (length (added ops) / 2 + 2) (added ops))
         else None) with
  | Some x, Some y => Some (Fin (to_double (t_plus x y) / 2))
  | _, _ => None
  end.
Proof.
  intros Hl Heven.
  rewrite (get_median_run_even heap_partial_sort_contract ops Hl Heven).
  rewrite (heap_tail_read ops Hl). reflexivity.
Qed.

(** Under heap selection every query at the end of a program answers as
    if the program had made no query. *)
Lemma heap_program_answer (ops : list op) (k : query) :
  fst (run_query hps k (run hps ops))
  = fst (run_query hps k (adds (added ops))).
Proof.
  destruct (Nat.odd (length (added ops))) eqn:Hodd.
  { apply (program_answer heap_partial_sort_contract). intros _. exact Hodd. }
  destruct k;
    try (apply (program_answer heap_partial_sort_contract); discriminate).
  assert (Heven : Nat.even (length (added ops)) = true).
  { rewrite <- Nat.negb_odd, Hodd. reflexivity. }
  cbn [run_query].
  destruct (added ops) as [|v l] eqn:E.
  - destruct (run_frame (ps:=hps) heap_partial_sort_contract ops)
      as (_ & _ & _ & _ & Hp).
    rewrite E in Hp. apply Permutation_nil in Hp.
    unfold get_median. rewrite Hp. reflexivity.
  - assert (Hl : added ops <> []) by (rewrite E; discriminate).
    rewrite <- E in *.
    pose proof (heap_median_even ops Hl Heven) as E1.
    assert (Hl' : added (map (@Add T) (added ops)) = added ops).
    { clear. induction (added ops) as [|x xs IH]; simpl; congruence. }
    pose proof (heap_median_even (map (@Add T) (added ops))) as E2.
    rewrite Hl', (run_adds hps) in E2. specialize (E2 Hl Heven).
    destruct (get_median hps (run hps ops)),
             (get_median hps (adds (added ops))).
    cbn [fst] in *. rewrite E1, E2. reflexivity.
Qed.

End HeapHistory.

(** ** The frame of a query *)

Section Frame.

Context {T : Type} `{Numeric T} `{!NumericOrder T}.

Variable ps : nat -> list T -> list T.
Hypothesis ps_ok : partial_sort_contract ps.

(** C10.  In every state a program can reach, a query leaves [sum], [max],
    [a], [q] and the number of values as they are, and the values the same
    up to their order.  A later query answers as if the earlier one had
    not been made: any query, whatever queries are made in between; and,
    whatever operations are made in between, any query but the median of
    an even number of values, which reads a position that the partial sort
    leaves in unspecified order; with the heap selection of the common
    implementations, that one as well. *)
Theorem query_frame (ops : list op) (k : query) :
  let d := run ps ops in
  let d' := snd (run_query ps k d) in
  sum d' = sum d /\ max d' = max d /\ a d' = a d /\ q d' = q d /\
  length (values d') = length (values d) /\
  Permutation (values d) (values d') /\
  (forall ks k2,
      fst (run_query ps k2 (run_queries ps ks d')) = fst (run_query ps k2 d))
  /\
  (forall ops2 k2,
      (k2 = QMedian -> Nat.odd (length (added (ops ++ ops2))) = true) ->
      fst (run_query ps k2 (run ps (ops ++ Query k :: ops2)))
      = fst (run_query ps k2 (run ps (ops ++ ops2)))) /\
  (forall ops2 k2,
      fst (run_query heap_partial_sort k2
             (run heap_partial_sort (ops ++ Query k :: ops2)))
      = fst (run_query heap_partial_sort k2
               (run heap_partial_sort (ops ++ ops2)))).
Proof.
  intros d d'. pose proof (valid_run ps ops) as Hv. fold d in Hv.
  destruct (query_keeps ps_ok k Hv) as (Hsum & Hmax & Ha & Hq & Hlen & Hp).
  assert (E : forall ops2,
             added (ops ++ Query k :: ops2) = added (ops ++ ops2)).
  { intros ops2. rewrite !added_app. reflexivity. }
  repeat split; try assumption.
  - intros ks k2.
    change (run_queries ps ks d') with (run_queries ps (k :: ks) d).
    apply later_query; assumption.
  - intros ops2 k2 Hk.
    rewrite !(program_answer ps_ok); rewrite ?E; try assumption.
    reflexivity.
  - intros ops2 k2. rewrite !heap_program_answer, E. reflexivity.
Qed.

End Frame.

(** *** The running maximum *)

Section Maximum.

Context {T : Type} `{Numeric T} `{!NumericOrder T}.

(** When [std::numeric_limits<T>::min()] is not above the added values,
    [get_max()] is the maximum of a non-empty sequence. *)
Lemma get_max_maximum (l : list T) :
  l <> [] ->
  (forall v, In v l -> t_le limits_min v) ->
  In (get_max (adds l)) l /\
  (forall y, In y l -> t_le y (get_max (adds l))).
Proof.
  intros Hl Hlow. unfold get_max. rewrite max_adds.
  destruct (list_max_spec l limits_min) as (Hin & Hle & Hub).
  split; [|exact Hub].
  destruct Hin as [E|Hin]; [|exact Hin].
  destruct l as [|v l]; [contradiction|].
  assert (Hv : v = limits_min).
  { apply t_le_antisym.
    - rewrite <- E. apply Hub. left. reflexivity.
    - apply Hlow. left. reflexivity. }
  rewrite E, <- Hv. left. reflexivity.
Qed.

Lemma get_max_empty : get_max (@ctor T _) = limits_min.
Proof. reflexivity. Qed.

End Maximum.

(** For [T = int] the sentinel is the least value of the type, and
    [get_max()] is the maximum of every non-empty sequence. *)
Lemma get_max_int (l : list int) :
  l <> [] -> Forall in_range l ->
  In (get_max (adds l)) l /\
  (forall y, In y l -> (y <= get_max (adds l))%Z).
Proof.
  intros Hl Hr.
  destruct (get_max_maximum (T:=int) Hl) as [Hin Hub].
  - intros v Hv. rewrite Forall_forall in Hr. specialize (Hr v Hv).
    unfold t_le. simpl. apply Z.ltb_ge. apply Hr.
  - split; [exact Hin|].
    intros y Hy. specialize (Hub y Hy). unfold t_le in Hub. simpl in Hub.
    apply Z.ltb_ge in Hub. exact Hub.
Qed.

(** C5.  With [T = double] the constructor's sentinel
    [std::numeric_limits<double>::min()] is a positive value, not the least
    value of the type.  After [add(-1.0)] the accumulator holds one value,
    -1, and [get_max()] still returns the sentinel; likewise after
    [add(0.0)]. *)
Theorem get_max_double_sentinel :
  values (adds (T:=R) [(-1)%R]) = [(-1)%R] /\
  get_max (adds (T:=R) [(-1)%R]) = DBL_MIN /\
  get_max (adds (T:=R) [0%R]) = DBL_MIN /\
  (0 < DBL_MIN)%R /\
  get_max (@ctor R _) = DBL_MIN.
Proof.
  pose proof DBL_MIN_pos as Hpos.
  assert (Hlow : forall x : R, (x <= 0)%R ->
                               get_max (adds (T:=R) [x]) = DBL_MIN).
  { intros x Hx. unfold get_max, adds. simpl. unfold Rltb.
    destruct (Rlt_dec DBL_MIN x); [lra|reflexivity]. }
  split; [reflexivity|]. split; [apply Hlow; lra|].
  split; [apply Hlow; lra|]. split; [exact Hpos|reflexivity].
Qed.

(** *** The median of an even number of values *)

Section EvenMedian.

Context {T : Type} `{Numeric T} `{!NumericOrder T}.

Variable ps : nat -> list T -> list T.
Hypothesis ps_ok : partial_sort_contract ps.

(** With two values the second read, [values[2]], is outside the vector. *)
Lemma get_median_two (x y : T) :
  fst (get_median ps (adds [x; y])) = None.
Proof.
  rewrite (get_median_adds_even ps_ok); [|discriminate|reflexivity].
  cbn [length Nat.div Nat.divmod fst Nat.add].
  destruct (nth_error (ascending [x; y]) 1); [|reflexivity].
  assert (E : nth_error (ps 2 [x; y]) 2 = None).
  { apply nth_error_None. rewrite (ps_length ps_ok); simpl; lia. }
  rewrite E. reflexivity.
Qed.

(** With four values one position is left outside the sorted prefix, so it
    holds the largest value: the two values read are the last two of the
    ascending order. *)
Lemma get_median_four (l : list T) :
  length l = 4 ->
  fst (get_median ps (adds l)) =
  match nth_error (ascending l) 2, nth_error (ascending l) 3 with
  | Some x, Some y => Some (Fin (to_double (t_plus x y) / 2))
  | _, _ => None
  end.
Proof.
  intros Hlen.
  assert (Hl : l <> []) by (intros ->; discriminate).
  rewrite (get_median_adds_even ps_ok Hl); [|rewrite Hlen; reflexivity].
  rewrite Hlen. cbn [Nat.div Nat.divmod fst Nat.add].
  assert (Hm : 3 <= length l) by lia.
  destruct (ps_ok l Hm) as (Hp & _ & _).
  pose proof (partial_sort_prefix l ps_ok Hm) as Hpre.
  pose proof (ascending_perm l) as Hasc.
  pose proof (Permutation_length Hp) as Hlp.
  pose proof (Permutation_length Hasc) as Hla.
  rewrite Hlen in Hlp, Hla.
  destruct (ps 3 l) as [|p0 [|p1 [|p2 [|p3 [|? ?]]]]]; try discriminate.
  destruct (ascending l) as [|s0 [|s1 [|s2 [|s3 [|? ?]]]]]; try discriminate.
  simpl in Hpre. injection Hpre as -> -> ->.
  assert (Hpp : Permutation [s0; s1; s2; p3] [s0; s1; s2; s3]).
  { rewrite <- Hp. exact Hasc. }
  do 3 apply Permutation_cons_inv in Hpp.
  apply Permutation_length_1 in Hpp. subst p3. reflexivity.
Qed.

End EvenMedian.

(** Scenario 4: after adding 1, 2, 3, 4 the median is 3.5, whatever the
    conforming partial sort. *)
Lemma get_median_1234 (ps : nat -> list int -> list int) :
  partial_sort_contract ps ->
  fst (get_median ps (adds [1; 2; 3; 4]%Z)) = Some (Fin 3.5).
Proof.
  intros Hps. rewrite (get_median_four Hps); [|reflexivity].
  cbv -[Rdiv IZR]. do 2 f_equal. lra.
Qed.

(** C1.  The even branch of [get_median()] reads the positions [count / 2]
    and [count / 2 + 1], while the partial sort orders the positions up to
    [count / 2] only.  With two values the second position read is outside
    the vector.  With the six values 1, 2, 3, 4, 6, 5 the position
    [count / 2 + 1 = 4] holds 6 after the heap selection, and the result is
    (4 + 6) / 2 = 5, while the values at the indices 3 and 4 of the
    ascending order are 4 and 5, of average 4.5. *)
Theorem get_median_even_defect :
  fst (get_median heap_partial_sort (adds (T:=int) [1; 2]%Z)) = None /\
  values (snd (get_median heap_partial_sort
                 (adds (T:=int) [1; 2; 3; 4; 6; 5]%Z)))
    = [1; 2; 3; 4; 6; 5]%Z /\
  fst (get_median heap_partial_sort (adds (T:=int) [1; 2; 3; 4; 6; 5]%Z))
    = Some (Fin 5) /\
  nth_error (ascending (T:=int) [1; 2; 3; 4; 6; 5]%Z) 3 = Some 4%Z /\
  nth_error (ascending (T:=int) [1; 2; 3; 4; 6; 5]%Z) 4 = Some 5%Z /\
  Fin 5 <> Fin ((4 + 5) / 2).
Proof.
  split; [|split; [|split; [|split; [|split]]]].
  - apply (get_median_two heap_partial_sort_contract).
  - cbv -[Rplus Rminus Rmult Rdiv IZR INR Rinv]. reflexivity.
  - cbv -[Rplus Rminus Rmult Rdiv IZR INR Rinv]. do 2 f_equal. lra.
  - reflexivity.
  - reflexivity.
  - intros E. injection E as E. lra.
Qed.

(** ** The running variance *)

Section Variance.

Local Open Scope R_scope.

Lemma rsum_snoc (xs : list R) (x : R) : rsum (xs ++ [x]) = rsum xs + x.
Proof.
  induction xs as [|y xs IH]; simpl; [lra|]. rewrite IH. lra.
Qed.

Lemma rsum_squares_nonneg (xs : list R) (c : R) :
  0 <= rsum (map (fun x => (x - c) * (x - c)) xs).
Proof.
  induction xs as [|y xs IH]; simpl; [lra|].
  pose proof (Rle_0_sqr (y - c)) as Hy. unfold Rsqr in Hy. lra.
Qed.

(** Sum of the squared deviations from [c], by the sums of the values and
    of their squares. *)
Lemma rsum_deviations (xs : list R) (c : R) :
  rsum (map (fun x => (x - c) * (x - c)) xs) =
  rsum (map (fun x => x * x) xs) - 2 * c * rsum xs
  + INR (length xs) * c * c.
Proof.
  induction xs as [|y xs IH].
  - simpl. lra.
  - cbn [map rsum fold_right length].
    fold (rsum (map (fun x => (x - c) * (x - c)) xs)).
    fold (rsum (map (fun x => x * x) xs)). fold (rsum xs).
    rewrite IH, S_INR. ring.
Qed.

Context {T : Type} `{Numeric T}.

(** The state kept by [add]: [a] is the mean of the values added so far
    and [q] the sum of their squares less [a] times their sum. *)
Lemma running_invariant (l : list T) :
  INR (length l) * a (adds l) = rsum (map to_double l) /\
  q (adds l) =
  rsum (map (fun x => x * x) (map to_double l))
  - a (adds l) * rsum (map to_double l).
Proof.
  induction l as [|v l [IHa IHq]] using rev_ind.
  - simpl. split; lra.
  - rewrite adds_snoc. unfold add. cbn [a q].
    rewrite values_adds, !map_app. cbn [map].
    rewrite !rsum_snoc, !length_app. cbn [length].
    rewrite plus_INR. change (INR 1) with 1.
    set (n := INR (length l)) in *.
    set (x := to_double v) in *.
    set (S1 := rsum (map to_double l)) in *.
    set (S2 := rsum (map (fun x => x * x) (map to_double l))) in *.
    assert (Hn : 0 <= n) by apply pos_INR.
    assert (HN : n + 1 <> 0) by lra.
    split.
    + rewrite <- IHa. field. exact HN.
    + rewrite IHq, <- IHa. field. exact HN.
Qed.

Lemma variance_adds (l : list T) :
  l <> [] ->
  q (adds l) / INR (length l) = population_variance (map to_double l).
Proof.
  intros Hl. destruct (running_invariant l) as [Ha Hq].
  unfold population_variance, mean.
  rewrite rsum_deviations, length_map, Hq.
  assert (Hn : INR (length l) <> 0).
  { apply not_0_INR. destruct l; [contradiction|discriminate]. }
  assert (Ea : a (adds l) = rsum (map to_double l) / INR (length l)).
  { rewrite <- Ha. field. exact Hn. }
  rewrite Ea. field. exact Hn.
Qed.

Lemma population_variance_nonneg (xs : list R) :
  0 <= population_variance xs.
Proof.
  unfold population_variance.
  pose proof (rsum_squares_nonneg xs (mean xs)) as Hs.
  destruct xs as [|x xs]; [simpl; lra|].
  assert (Hn : 0 < INR (length (x :: xs))).
  { apply lt_0_INR. simpl. lia. }
  apply Rmult_le_pos; [|exact Hs].
  unfold Rdiv. rewrite Rmult_1_l. left. apply Rinv_0_lt_compat. exact Hn.
Qed.

(** C2.  For every non-empty sequence of added values, read exactly over
    the reals: [a] is their mean, [q / count] is their population variance,
    and [get_standard_deviation()] is the population standard deviation of
    the two-pass formula, the square root of [1/n] times the sum of the
    squared deviations from the mean. *)
Theorem running_variance (l : list T) :
  l <> [] ->
  a (adds l) = mean (map to_double l) /\
  q (adds l) / INR (length l) = population_variance (map to_double l) /\
  get_standard_deviation (adds l) =
  Fin (population_standard_deviation (map to_double l)).
Proof.
  intros Hl.
  assert (Hn : INR (length l) <> 0).
  { apply not_0_INR. destruct l; [contradiction|discriminate]. }
  split; [|split].
  - destruct (running_invariant l) as [Ha _]. unfold mean.
    rewrite length_map, <- Ha. field. exact Hn.
  - apply variance_adds. exact Hl.
  - unfold get_standard_deviation, population_standard_deviation.
    rewrite values_adds.
    destruct (Nat.eqb_spec (length l) 0) as [E|_].
    + destruct l; [contradiction|discriminate].
    + rewrite (variance_adds Hl). unfold dsqrt.
      pose proof (population_variance_nonneg (map to_double l)).
      destruct (Rlt_dec (population_variance (map to_double l)) 0);
        [lra|reflexivity].
Qed.

End Variance.

(** ** Sum and count *)




Section IntegerSum.

(** An integer type with the values [lo .. hi] and any result [w] for a
    sum outside them. *)
Variables (lo hi : Z) (w : Z -> Z).
Hypothesis w_exact : forall z, (lo <= z <= hi)%Z -> w z = z.




End IntegerSum.


(** What [+] gives outside the values of the type is not fixed by the
    language.  With a [+] that saturates, one sum so far outside them
    leaves [get_sum()] off the arithmetic sum although the final sum is a
    value of the type: the condition on the sums so far cannot be
    dropped. *)
Lemma get_sum_saturating :
  let w := fun z => Z.min int_max (Z.max int_min z) in
  (forall z, (int_min <= z <= int_max)%Z -> w z = z) /\
  in_range (zsum [2147483647; 1; -1]%Z) /\
  ~ running int_min int_max [2147483647; 1; -1]%Z /\
  get_sum (adds (H:=integer_type int_min w) [2147483647; 1; -1]%Z)
  = 2147483646%Z.
Proof.
  intros w. split; [intros z Hz; unfold w; lia|]. split.
  - unfold in_range, int_min, int_max. simpl. lia.
  - split; [|reflexivity].
    intros Hrun. specialize (Hrun 2). unfold int_min, int_max in Hrun.
    simpl in Hrun. lia.
Qed.

(** ** Rendering *)

Section Rendering.

Context {T : Type} `{Numeric T} `{!NumericOrder T}.

Variable ps : nat -> list T -> list T.
Hypothesis ps_ok : partial_sort_contract ps.

Lemma get_count_nonzero (ops : list op) :
  get_count (run ps ops) <> 0%Z -> added ops <> [].
Proof.
  intros Hc E. apply Hc.
  destruct (getters_run ps_ok ops) as (-> & _). rewrite E. reflexivity.
Qed.

(** C7.  When [get_count()] is not 0 the stream receives nine items: the
    count, the minimum, the mean, the maximum and the standard deviation,
    in that order, with a tab character between two of them; the minimum
    is the first of the added values in ascending order.  When
    [get_count()] is 0 the stream receives the literal made of the
    character 0 and four tab characters, that is 0 followed by four empty
    fields, and no statistic is computed: the accumulator is not touched. *)
Theorem render_line :
  (forall ops, get_count (run ps ops) <> 0%Z ->
     exists m,
       nth_error (ascending (added ops)) 0 = Some m /\
       fst (render ps (run ps ops)) =
       Some [OInt (get_count (run ps ops)); OChar tab;
             OVal m; OChar tab;
             ODouble (get_mean (run ps ops)); OChar tab;
             OVal (get_max (run ps ops)); OChar tab;
             ODouble (get_standard_deviation (run ps ops))]) /\
  (forall d, get_count d = 0%Z ->
     render ps d = (Some [OStr empty_line], d)) /\
  empty_line = String "0" (String tab (String tab (String tab
                 (String tab EmptyString)))) /\
  fields empty_line =
  [String "0" EmptyString; EmptyString; EmptyString; EmptyString;
   EmptyString].
Proof.
  split; [|split; [|split; reflexivity]].
  - intros ops Hc. pose proof (get_count_nonzero ops Hc) as Hl.
    rewrite (render_items ps_ok (valid_run ps ops)).
    apply Z.eqb_neq in Hc. rewrite Hc. cbn [negb].
    rewrite (get_min_run ps_ok ops Hl).
    destruct (nth_error (ascending (added ops)) 0) as [m|] eqn:Hasc.
    + exists m. split; reflexivity.
    + exfalso. apply nth_error_None in Hasc.
      rewrite ascending_length in Hasc.
      destruct (added ops); [contradiction|simpl in Hasc; lia].
  - intros d Hc. unfold render. rewrite Hc. reflexivity.
Qed.

End Rendering.

(** ** The empty accumulator, and operations that complete *)

Section Empty.

Context {T : Type} `{Numeric T} `{!NumericOrder T}.

Variable ps : nat -> list T -> list T.
Hypothesis ps_ok : partial_sort_contract ps.

Lemma ascending_nth_some (l : list T) (i : nat) :
  i < length l -> exists x, nth_error (ascending l) i = Some x.
Proof.
  intros Hi. destruct (nth_error (ascending l) i) as [x|] eqn:E.
  - exists x. reflexivity.
  - apply nth_error_None in E. rewrite ascending_length in E. lia.
Qed.

Lemma even_half (n : nat) : Nat.even n = true -> n = 2 * (n / 2).
Proof.
  intros Heven. pose proof (Nat.div_mod_eq n 2) as E.
  rewrite (even_mod2 _ Heven) in E. lia.
Qed.






End Empty.


(** ** The properties at concrete inputs

    [T = int] and the heap selection, which meets the contract. *)

(** Scenario 1: after adding 1, 2, 3, 4, 5 the median is 3, also when
    queries are made on the way. *)
Lemma get_median_odd_witness :
  partial_sort_contract (heap_partial_sort (T:=int)) /\
  Nat.odd (length [1; 2; 3; 4; 5]%Z) = true /\
  nth_error (ascending (T:=int) [1; 2; 3; 4; 5]%Z) 2 = Some 3%Z /\
  fst (get_median heap_partial_sort (adds (T:=int) [1; 2; 3; 4; 5]%Z))
    = Some (Fin 3) /\
  fst (get_median heap_partial_sort
         (run heap_partial_sort
              [Add 1%Z; Add 2%Z; Query QMin; Add 3%Z; Query QMedian;
               Add 4%Z; Add 5%Z]))
    = Some (Fin 3).
Proof.
  split; [apply heap_partial_sort_contract|].
  split; [reflexivity|].
  destruct (get_median_odd (T:=int) heap_partial_sort_contract
                           [1; 2; 3; 4; 5]%Z eq_refl)
    as (x & Hx & _ & _ & Hmed & Hrun).
  vm_compute in Hx. injection Hx as <-.
  split; [reflexivity|]. split; [exact Hmed|].
  apply Hrun. reflexivity.
Defined.

(** Scenario 1: after adding 1, 2, 3, 4, 5, here in another order, the
    minimum is 1, also when queries are made on the way. *)
Lemma get_min_minimum_witness :
  partial_sort_contract (heap_partial_sort (T:=int)) /\
  [4; 1; 5; 3; 2]%Z <> [] /\
  fst (get_min heap_partial_sort (adds (T:=int) [4; 1; 5; 3; 2]%Z))
    = Some 1%Z /\
  fst (get_min heap_partial_sort
         (run heap_partial_sort
              [Add 4%Z; Query QMedian; Add 1%Z; Add 5%Z; Query QRender;
               Add 3%Z; Add 2%Z]))
    = Some 1%Z.
Proof.
  split; [apply heap_partial_sort_contract|].
  split; [discriminate|].
  destruct (get_min_minimum (T:=int) heap_partial_sort_contract
                            (l:=[4; 1; 5; 3; 2]%Z))
    as (m & Hasc & _ & _ & Hmin & Hrun); [discriminate|].
  vm_compute in Hasc. injection Hasc as <-.
  split; [exact Hmin|]. apply Hrun. reflexivity.
Defined.

(** Scenario 1: after adding 1, 2, 3, 4, 5 the variance is 2 and the
    standard deviation is the square root of 2. *)
Lemma running_variance_witness :
  [1; 2; 3; 4; 5]%Z <> [] /\
  (q (adds (T:=int) [1; 2; 3; 4; 5]%Z) / INR (length [1; 2; 3; 4; 5]%Z))%R
    = 2%R /\
  get_standard_deviation (adds (T:=int) [1; 2; 3; 4; 5]%Z) = Fin (sqrt 2).
Proof.
  split; [discriminate|].
  destruct (running_variance (T:=int) (l:=[1; 2; 3; 4; 5]%Z))
    as (_ & Hq & Hsd); [discriminate|].
  assert (Hv : population_variance
                 (map (to_double (T:=int)) [1; 2; 3; 4; 5]%Z) = 2%R).
  { unfold population_variance, mean. simpl. lra. }
  split.
  - exact (eq_trans Hq Hv).
  - unfold population_standard_deviation in Hsd. rewrite Hv in Hsd.
    exact Hsd.
Defined.



(** The line of a program that adds 3, 1, 2 and asks for the median on
    the way. *)
Lemma render_line_witness :
  partial_sort_contract (heap_partial_sort (T:=int)) /\
  get_count (run heap_partial_sort [Add 3%Z; Add 1%Z; Query QMedian;
                                    Add 2%Z]) <> 0%Z /\
  fst (render heap_partial_sort
         (run heap_partial_sort [Add 3%Z; Add 1%Z; Query QMedian; Add 2%Z]))
  = Some [OInt 3; OChar tab; OVal 1%Z; OChar tab;
          ODouble (get_mean (adds (T:=int) [3; 1; 2]%Z)); OChar tab;
          OVal 3%Z; OChar tab;
          ODouble (get_standard_deviation (adds (T:=int) [3; 1; 2]%Z))].
Proof.
  assert (Hc : get_count (run heap_partial_sort
                 [Add 3%Z; Add 1%Z; Query QMedian; Add 2%Z]) <> 0%Z)
    by discriminate.
  split; [apply heap_partial_sort_contract|]. split; [exact Hc|].
  destruct (proj1 (render_line (T:=int) heap_partial_sort_contract) _ Hc)
    as (m & Hasc & Hr).
  vm_compute in Hasc. injection Hasc as <-. exact Hr.
Defined.

(** After adding 3, 1, 2 the median asked twice is the same, and the
    first call leaves the flag set. *)
Lemma query_idempotent_witness :
  partial_sort_contract (heap_partial_sort (T:=int)) /\
  added (T:=int) [Add 3%Z; Add 1%Z; Add 2%Z] <> [] /\
  run_query heap_partial_sort QMedian
    (snd (run_query heap_partial_sort QMedian
            (run heap_partial_sort [Add 3%Z; Add 1%Z; Add 2%Z])))
  = run_query heap_partial_sort QMedian
      (run heap_partial_sort [Add 3%Z; Add 1%Z; Add 2%Z]) /\
  is_sorted (run heap_partial_sort [Add 3%Z; Add 1%Z; Add 2%Z]) = false /\
  is_sorted (snd (run_query heap_partial_sort QMedian
                    (run heap_partial_sort [Add 3%Z; Add 1%Z; Add 2%Z])))
  = true.
Proof.
  assert (Hl : added (T:=int) [Add 3%Z; Add 1%Z; Add 2%Z] <> [])
    by discriminate.
  split; [apply heap_partial_sort_contract|]. split; [exact Hl|].
  destruct (query_idempotent (T:=int) heap_partial_sort_contract
              [Add 3%Z; Add 1%Z; Add 2%Z] QMedian)
    as (Hrep & _ & _ & _ & _ & _ & _ & _ & Hset & _).
  split; [exact Hrep|]. split; [reflexivity|].
  apply Hset; [exact Hl|]. right. left. reflexivity.
Defined.

Lemma query_frame_witness :
  partial_sort_contract (heap_partial_sort (T:=int)) /\
  Permutation
    (values (run heap_partial_sort [Add 3%Z; Add 1%Z; Add 2%Z]))
    (values (snd (run_query heap_partial_sort QMin
                    (run heap_partial_sort [Add 3%Z; Add 1%Z; Add 2%Z]))))
  /\
  fst (run_query heap_partial_sort QMedian
         (run_queries heap_partial_sort [QRender; QCount]
            (snd (run_query heap_partial_sort QMin
                    (run heap_partial_sort [Add 3%Z; Add 1%Z; Add 2%Z])))))
  = fst (run_query heap_partial_sort QMedian
           (run heap_partial_sort [Add 3%Z; Add 1%Z; Add 2%Z])) /\
  fst (run_query heap_partial_sort QMin
         (run heap_partial_sort
              ([Add 3%Z; Add 1%Z; Add 2%Z] ++ Query QMin :: [Add 0%Z])))
  = fst (run_query heap_partial_sort QMin
           (run heap_partial_sort
                ([Add 3%Z; Add 1%Z; Add 2%Z] ++ [Add 0%Z]))) /\
  fst (run_query heap_partial_sort QMedian
         (run heap_partial_sort
              ([Add 3%Z; Add 1%Z; Add 2%Z] ++
               Query QMin :: [Add 0%Z; Add 7%Z; Add 5%Z])))
  = fst (run_query heap_partial_sort QMedian
           (run heap_partial_sort
                ([Add 3%Z; Add 1%Z; Add 2%Z] ++
                 [Add 0%Z; Add 7%Z; Add 5%Z]))).
Proof.
  split; [apply heap_partial_sort_contract|].
  destruct (query_frame (T:=int) heap_partial_sort_contract
              [Add 3%Z; Add 1%Z; Add 2%Z] QMin)
    as (_ & _ & _ & _ & _ & Hp & Hlater & Hprog & Hheap).
  split; [exact Hp|]. split; [exact (Hlater [QRender; QCount] QMedian)|].
  split; [apply Hprog; discriminate|apply Hheap].
Defined.

(** ** Further properties of the accumulator *)

Section Bounds.

Context {T : Type} `{Numeric T} `{!NumericOrder T}.

Variable ps : nat -> list T -> list T.
Hypothesis ps_ok : partial_sort_contract ps.

(** X1.  At the end of any program the three operations that read the
    vector stay inside it except in two cases: [get_min()] reads
    [values.front()] of an empty vector exactly when nothing was added,
    and [get_median()] reads past the end exactly when two values were
    added.  Rendering never reads outside. *)
Theorem reads_inside (ops : list op) :
  (fst (get_min ps (run ps ops)) = None <-> added ops = []) /\
  (fst (get_median ps (run ps ops)) = None <-> length (added ops) = 2) /\
  fst (render ps (run ps ops)) <> None.
Proof.
  split; [|split].
  - rewrite (get_min_program ps_ok). split.
    + intros E. destruct (added ops) as [|v l] eqn:El; [reflexivity|].
      assert (Hl : v :: l <> []) by discriminate.
      rewrite (get_min_adds ps_ok Hl) in E.
      destruct (ascending_nth_some (v :: l) (i:=0)) as [x Hx];
        [simpl; lia|congruence].
    + intros ->. reflexivity.
  - destruct (added ops) as [|v l] eqn:El.
    { destruct (run_frame ps_ok ops) as (_ & _ & _ & _ & Hp).
      rewrite El in Hp. apply Permutation_nil in Hp.
      unfold get_median. rewrite Hp. simpl. split; discriminate. }
    assert (Hl : added ops <> []) by (rewrite El; discriminate).
    rewrite <- El. clear El v l.
    assert (Hn : length (added ops) <> 0)
      by (destruct (added ops); [contradiction|discriminate]).
    destruct (Nat.odd (length (added ops))) eqn:Hodd.
    + rewrite (get_median_run_odd ps_ok ops Hodd).
      destruct (ascending_nth_some (added ops)
                  (i:=length (added ops) / 2)) as [x ->].
      { apply Nat.div_lt; lia. }
      split; [discriminate|].
      intros E. rewrite E in Hodd. discriminate.
    + assert (Heven : Nat.even (length (added ops)) = true).
      { rewrite <- Nat.negb_odd, Hodd. reflexivity. }
      pose proof (even_half _ Heven) as Hhalf.
      rewrite (get_median_run_even ps_ok ops Hl Heven).
      destruct (ascending_nth_some (added ops)
                  (i:=length (added ops) / 2)) as [x ->].
      { apply Nat.div_lt; lia. }
      destruct (sort_run ps_ok ops Hl) as [Hlen _].
      destruct (nth_error (values (sort ps (run ps ops)))
                          (length (added ops) / 2 + 1)) as [y|] eqn:Ey.
      * split; [discriminate|]. intros E.
        assert (Hlt : length (added ops) / 2 + 1
                      < length (values (sort ps (run ps ops)))).
        { apply nth_error_Some. rewrite Ey. discriminate. }
        rewrite Hlen, E in Hlt. simpl in Hlt. lia.
      * split; [|reflexivity]. intros _.
        apply nth_error_None in Ey. rewrite Hlen in Ey. lia.
  - rewrite (render_items ps_ok (valid_run ps ops)).
    destruct (Z.eqb_spec (get_count (run ps ops)) 0) as [E|E];
      cbn [negb]; [discriminate|].
    pose proof (get_count_nonzero ps_ok ops E) as Hl.
    rewrite (get_min_run ps_ok ops Hl).
    destruct (ascending_nth_some (added ops) (i:=0)) as [x ->].
    + destruct (added ops); [contradiction|simpl; lia].
    + discriminate.
Qed.

(** X2.  What the flag [is_sorted] stands for.  At the end of any program
    the vector holds the values added, in some order; when the flag is
    cleared at least one value was added (so that [sort()] never gives
    [std::partial_sort] an empty range); when it is set, the first
    [count / 2 + 1] positions hold the smallest values in ascending
    order. *)
Theorem flag_invariant (ops : list op) :
  Permutation (added ops) (values (run ps ops)) /\
  (is_sorted (run ps ops) = false -> added ops <> []) /\
  (is_sorted (run ps ops) = true ->
   firstn (length (added ops) / 2 + 1) (values (run ps ops))
   = firstn (length (added ops) / 2 + 1) (ascending (added ops))).
Proof.
  destruct (run_frame ps_ok ops) as (_ & _ & _ & _ & Hp).
  split; [exact Hp|]. split.
  - intros E El. rewrite El in Hp. apply Permutation_nil in Hp.
    exact (valid_run ps ops E Hp).
  - intros E. pose proof (cached_run ps_ok ops E) as Hc.
    rewrite <- (Permutation_length Hp) in Hc.
    rewrite (ascending_permutation Hp). exact Hc.
Qed.

End Bounds.

Section Deviation.

Local Open Scope R_scope.

Lemma rsum_perm (xs ys : list R) : Permutation xs ys -> rsum xs = rsum ys.
Proof.
  induction 1; simpl; lra.
Qed.

Lemma rsum_all_equal (xs : list R) (c : R) :
  (forall x, In x xs -> x = c) -> rsum xs = INR (length xs) * c.
Proof.
  induction xs as [|y xs IH]; intros Hall.
  - simpl. lra.
  - cbn [rsum fold_right length]. fold (rsum xs).
    rewrite S_INR, IH, (Hall y); [lra|left; reflexivity|].
    intros x Hx. apply Hall. right. exact Hx.
Qed.

Lemma rsum_squares_zero (xs : list R) (c : R) :
  rsum (map (fun x => (x - c) * (x - c)) xs) = 0 <->
  (forall x, In x xs -> x = c).
Proof.
  induction xs as [|y xs IH].
  - simpl. split; [intros _ x []|reflexivity].
  - cbn [map rsum fold_right].
    fold (rsum (map (fun x => (x - c) * (x - c)) xs)).
    pose proof (rsum_squares_nonneg xs c) as Hs.
    pose proof (Rle_0_sqr (y - c)) as Hy. unfold Rsqr in Hy.
    split.
    + intros E. assert (E1 : (y - c) * (y - c) = 0) by lra.
      assert (E2 : rsum (map (fun x => (x - c) * (x - c)) xs) = 0) by lra.
      intros x [<-|Hx]; [|apply IH; assumption].
      apply Rmult_integral in E1. lra.
    + intros Hall.
      assert (E2 : rsum (map (fun x => (x - c) * (x - c)) xs) = 0).
      { apply IH. intros x Hx. apply Hall. right. exact Hx. }
      rewrite E2, (Hall y); [lra|left; reflexivity].
Qed.

Context {T : Type} `{Numeric T}.

(** X3.  For every non-empty sequence of added values, read over the
    reals, [get_standard_deviation()] is a finite number that is not
    negative (never not-a-number), and it is 0 exactly when all the added
    values are equal. *)
Theorem standard_deviation_zero (l : list T) :
  l <> [] ->
  exists s, get_standard_deviation (adds l) = Fin s /\ 0 <= s /\
            (s = 0 <->
             forall v w, In v l -> In w l -> to_double v = to_double w).
Proof.
  intros Hl. set (xs := map to_double l).
  pose proof (population_variance_nonneg xs) as Hvar.
  assert (Hn : 0 < INR (length xs)).
  { apply lt_0_INR. unfold xs. rewrite length_map.
    destruct l; [contradiction|simpl; lia]. }
  exists (sqrt (population_variance xs)). split; [|split].
  - unfold get_standard_deviation. rewrite values_adds.
    destruct (Nat.eqb_spec (length l) 0) as [E|_].
    { destruct l; [contradiction|discriminate]. }
    rewrite (variance_adds Hl). fold xs. unfold dsqrt.
    destruct (Rlt_dec (population_variance xs) 0); [lra|reflexivity].
  - apply sqrt_pos.
  - assert (Hmean : population_variance xs = 0 <->
                    (forall x, In x xs -> x = mean xs)).
    { rewrite <- rsum_squares_zero. unfold population_variance.
      assert (Hinv : 0 < 1 / INR (length xs)).
      { unfold Rdiv. rewrite Rmult_1_l. apply Rinv_0_lt_compat. exact Hn. }
      split.
      - intros E. apply Rmult_integral in E. destruct E; [lra|assumption].
      - intros ->. ring. }
    split.
    + intros E. apply sqrt_eq_0 in E; [|exact Hvar].
      intros v w Hv Hw. rewrite Hmean in E.
      rewrite (E (to_double v)), (E (to_double w));
        [reflexivity|apply in_map; exact Hw|apply in_map; exact Hv].
    + intros Hall.
      replace (population_variance xs) with 0; [apply sqrt_0|].
      symmetry. apply Hmean.
      destruct l as [|v0 l0]; [contradiction|].
      assert (Hc : forall x, In x xs -> x = to_double v0).
      { intros x Hx. unfold xs in Hx. apply in_map_iff in Hx.
        destruct Hx as (w & <- & Hw). apply Hall; [exact Hw|].
        left. reflexivity. }
      intros x Hx. rewrite (Hc x Hx). unfold mean.
      rewrite (rsum_all_equal xs Hc). field. lra.
Qed.

(** X4.  Read over the reals, the running mean [a], the running sum of
    squared deviations [q] and [get_standard_deviation()] do not depend on
    the order in which the values are added. *)
Theorem deviation_order_independent (l l' : list T) :
  Permutation l l' ->
  a (adds l) = a (adds l') /\ q (adds l) = q (adds l') /\
  get_standard_deviation (adds l) = get_standard_deviation (adds l').
Proof.
  intros Hp.
  destruct (running_invariant l) as [Ha Hq].
  destruct (running_invariant l') as [Ha' Hq'].
  pose proof (Permutation_length Hp) as Hlen.
  assert (E1 : rsum (map to_double l) = rsum (map to_double l')).
  { apply rsum_perm, Permutation_map. exact Hp. }
  assert (E2 : rsum (map (fun x => x * x) (map to_double l))
               = rsum (map (fun x => x * x) (map to_double l'))).
  { apply rsum_perm. do 2 apply Permutation_map. exact Hp. }
  assert (Ea : a (adds l) = a (adds l')).
  { destruct l as [|v l0].
    - apply Permutation_nil in Hp. subst l'. reflexivity.
    - assert (Hn : INR (length (v :: l0)) <> 0)
        by (apply not_0_INR; discriminate).
      rewrite <- Hlen, <- E1, <- Ha in Ha'.
      apply (Rmult_eq_reg_l (INR (length (v :: l0)))); [|exact Hn].
      symmetry. exact Ha'. }
  assert (Eq : q (adds l) = q (adds l')).
  { rewrite Hq, Hq', Ea, E1, E2. reflexivity. }
  split; [exact Ea|]. split; [exact Eq|].
  unfold get_standard_deviation. rewrite !values_adds, Eq, Hlen.
  reflexivity.
Qed.

(** X5.  Whatever the state of the accumulator, [add] does not decrease
    [q] (read over the reals): the term added by the recurrence is
    [(v - a)^2 * (n - 1) / n] for the new count [n].  So [q] is never
    negative after a sequence of [add]. *)
Theorem q_never_decreases :
  (forall (v : T) (d : Descriptive), q d <= q (add v d)) /\
  (forall l : list T, 0 <= q (adds l)).
Proof.
  assert (Hstep : forall (v : T) (d : Descriptive), q d <= q (add v d)).
  { intros v d. unfold add. cbn [q].
    rewrite length_app, plus_INR. cbn [length]. change (INR 1) with 1.
    set (n := INR (length (values d))).
    assert (Hn : 0 <= n) by apply pos_INR.
    set (x := to_double v). set (a0 := a d).
    assert (E : (x - a0) * (x - (a0 + (x - a0) / (n + 1)))
                = (x - a0) * (x - a0) * (n / (n + 1))).
    { field. lra. }
    rewrite E.
    assert (H1 : 0 <= (x - a0) * (x - a0)).
    { pose proof (Rle_0_sqr (x - a0)) as Hs. unfold Rsqr in Hs. exact Hs. }
    assert (H2 : 0 <= n / (n + 1)).
    { unfold Rdiv. apply Rmult_le_pos; [exact Hn|].
      left. apply Rinv_0_lt_compat. lra. }
    pose proof (Rmult_le_pos _ _ H1 H2). lra. }
  split; [exact Hstep|].
  intros l. induction l as [|v l IH] using rev_ind.
  - simpl. lra.
  - rewrite adds_snoc. eapply Rle_trans; [exact IH|apply Hstep].
Qed.

End Deviation.

(** *** [T = int] *)

Section IntStatistics.

Variable ps : nat -> list int -> list int.
Hypothesis ps_ok : partial_sort_contract ps.





(** X7.  For [T = int], at the end of any program that added at least one
    value, [get_max()] is one of the added values and none of them is
    larger, whatever queries were made on the way. *)
Theorem get_max_int_program (ops : list (op (T:=int))) :
  added ops <> [] -> Forall in_range (added ops) ->
  In (get_max (run ps ops)) (added ops) /\
  (forall y, In y (added ops) -> (y <= get_max (run ps ops))%Z).
Proof.
  intros Hl Hr.
  destruct (getters_run ps_ok ops) as (_ & _ & -> & _).
  apply get_max_int; assumption.
Qed.


End IntStatistics.

(** *** The median among the other statistics *)

Section MedianBounds.

Context {T : Type} `{Numeric T} `{!NumericOrder T}.

Variable ps : nat -> list T -> list T.
Hypothesis ps_ok : partial_sort_contract ps.

Lemma ascending_in (l : list T) (i : nat) (x : T) :
  nth_error (ascending l) i = Some x -> In x l.
Proof.
  intros Hx. apply nth_error_In in Hx.
  eapply Permutation_in; [symmetry; apply ascending_perm|exact Hx].
Qed.

Lemma ascending_last_max (l : list T) (z : T) :
  nth_error (ascending l) (length l - 1) = Some z -> is_max z l.
Proof.
  intros Hz. apply (is_max_perm (Permutation_sym (ascending_perm l))).
  pose proof (ascending_sorted l) as Hs.
  pose proof (ascending_length l) as Hlen.
  set (s := ascending l) in *. set (k := length l - 1) in *.
  split; [apply (nth_error_In _ k); exact Hz|].
  intros w Hw. apply In_nth_error in Hw. destruct Hw as [i Hi].
  assert (Hik : i < length s) by (apply nth_error_Some; congruence).
  destruct (Nat.eq_dec i k) as [->|Hne].
  - rewrite Hz in Hi. injection Hi as <-. apply t_le_refl.
  - rewrite <- (firstn_skipn k s) in Hs.
    apply (sorted_app_inv _ _ Hs).
    + apply in_firstn_nth. exists i. split; [lia|exact Hi].
    + apply (nth_error_In _ 0). rewrite nth_error_skipn, Nat.add_0_r.
      exact Hz.
Qed.

(** X9.  At the end of any program that added an odd number of values,
    none of them below [std::numeric_limits<T>::min()], the three order
    statistics are ordered: the minimum is not above the median and the
    median is not above the maximum. *)
Theorem min_median_max (ops : list op) :
  Nat.odd (length (added ops)) = true ->
  (forall v, In v (added ops) -> t_le limits_min v) ->
  exists m x,
    fst (get_min ps (run ps ops)) = Some m /\
    fst (get_median ps (run ps ops)) = Some (Fin (to_double x)) /\
    t_le m x /\ t_le x (get_max (run ps ops)).
Proof.
  intros Hodd Hlow.
  assert (Hl : added ops <> [])
    by (intros E; rewrite E in Hodd; discriminate).
  assert (Hn : length (added ops) <> 0)
    by (destruct (added ops); [contradiction|discriminate]).
  destruct (getters_run ps_ok ops) as (_ & _ & Hmax & _).
  destruct (get_max_maximum Hl Hlow) as [_ Hub].
  rewrite (get_min_run ps_ok ops Hl), (get_median_run_odd ps_ok ops Hodd),
    Hmax.
  destruct (nth_error (ascending (added ops)) 0) as [m|] eqn:Em.
  2:{ exfalso. apply nth_error_None in Em. rewrite ascending_length in Em.
      lia. }
  destruct (nth_error (ascending (added ops)) (length (added ops) / 2))
    as [x|] eqn:Ex.
  2:{ exfalso. apply nth_error_None in Ex. rewrite ascending_length in Ex.
      pose proof (Nat.div_lt (length (added ops)) 2). lia. }
  exists m, x. pose proof (ascending_in _ _ Ex) as Hx.
  destruct (ascending_head_min (added ops) Em) as [_ Hmin].
  repeat split; [apply Hmin|apply Hub]; exact Hx.
Qed.

(** X10.  At the end of any program that added an even number of values,
    at least four, [get_median()] is the half of [x + y] (the sum taken in
    [T]) where [x] is the value at index [count / 2] of the ascending order
    and [y] is an added value not below [x]: the result is never taken from
    below the upper of the two middle values.  With exactly four values [y]
    is the largest of them. *)
Theorem median_even_at_least (ops : list op) :
  Nat.even (length (added ops)) = true -> 4 <= length (added ops) ->
  exists x y,
    nth_error (ascending (added ops)) (length (added ops) / 2) = Some x /\
    In y (added ops) /\ t_le x y /\
    fst (get_median ps (run ps ops))
      = Some (Fin (to_double (t_plus x y) / 2)) /\
    (length (added ops) = 4 ->
     nth_error (ascending (added ops)) 3 = Some y).
Proof.
  intros Heven Hfour.
  assert (Hl : added ops <> [])
    by (destruct (added ops); [simpl in Hfour; lia|discriminate]).
  pose proof (even_half _ Heven) as Hhalf.
  destruct (sort_run ps_ok ops Hl) as [Hlen Hpre].
  destruct (run_frame ps_ok ops) as (_ & _ & _ & _ & Hp).
  pose proof (sort_frame ps_ok (valid_run ps ops)) as (_ & _ & _ & _ & Hp').
  pose proof (Permutation_trans Hp Hp') as Hperm.
  set (V := values (sort ps (run ps ops))) in *.
  set (n := length (added ops)) in *.
  rewrite (get_median_run_even ps_ok ops Hl Heven). fold V n.
  destruct (nth_error (ascending (added ops)) (n / 2)) as [x|] eqn:Ex.
  2:{ exfalso. apply nth_error_None in Ex. rewrite ascending_length in Ex.
      fold n in Ex. lia. }
  destruct (nth_error V (n / 2 + 1)) as [y|] eqn:Ey.
  2:{ exfalso. apply nth_error_None in Ey. lia. }
  assert (Hmax : is_max y (firstn (S (n / 2 + 1)) V)).
  { apply prefix_next_max; [|exact Ey].
    rewrite Hpre, (ascending_permutation Hperm). reflexivity. }
  assert (Hxv : nth_error V (n / 2) = Some x).
  { unfold V. rewrite (sort_run_nth ps_ok ops Hl); [exact Ex|fold n; lia]. }
  exists x, y. split; [reflexivity|]. split; [|split; [|split]].
  - eapply Permutation_in; [symmetry; exact Hperm|].
    apply (nth_error_In _ (n / 2 + 1)). exact Ey.
  - apply Hmax. apply in_firstn_nth. exists (n / 2). split; [lia|exact Hxv].
  - reflexivity.
  - intros E4.
    assert (Hf : firstn (S (n / 2 + 1)) V = V) by (apply firstn_all2; lia).
    rewrite Hf in Hmax.
    apply (is_max_perm (Permutation_sym Hperm)) in Hmax.
    destruct (nth_error (ascending (added ops)) 3) as [z|] eqn:Ez.
    2:{ exfalso. apply nth_error_None in Ez. rewrite ascending_length in Ez.
        fold n in Ez. lia. }
    f_equal. apply (is_max_unique (l:=added ops)); [|exact Hmax].
    apply ascending_last_max. fold n. rewrite E4. exact Ez.
Qed.

End MedianBounds.

(** *** The running maximum, whatever the element type *)

Section MaximumBound.

Context {T : Type} `{Numeric T} `{!NumericOrder T}.

Variable ps : nat -> list T -> list T.
Hypothesis ps_ok : partial_sort_contract ps.

(** X11.  For any element type, at the end of any program [get_max()] is
    not below any added value nor below the constructor's sentinel, and it
    is the sentinel or one of the added values. *)
Theorem get_max_upper_bound (ops : list op) :
  (forall y, In y (added ops) -> t_le y (get_max (run ps ops))) /\
  t_le limits_min (get_max (run ps ops)) /\
  (get_max (run ps ops) = limits_min \/
   In (get_max (run ps ops)) (added ops)).
Proof.
  destruct (getters_run ps_ok ops) as (_ & _ & -> & _).
  unfold get_max. rewrite max_adds.
  destruct (list_max_spec (added ops) limits_min) as (Hin & Hle & Hub).
  split; [exact Hub|]. split; [exact Hle|exact Hin].
Qed.

End MaximumBound.

(** *** The further properties at concrete inputs *)

Lemma reads_inside_witness :
  partial_sort_contract (heap_partial_sort (T:=int)) /\
  (fst (get_median heap_partial_sort
          (run heap_partial_sort [Add 7%Z; Query QMin; Add 3%Z])) = None <->
   length (added [Add 7%Z; Query QMin; Add 3%Z]) = 2) /\
  fst (get_min heap_partial_sort
         (run heap_partial_sort [Add 7%Z; Query QMin; Add 3%Z])) <> None /\
  fst (render heap_partial_sort
         (run heap_partial_sort [Add 7%Z; Query QMin; Add 3%Z])) <> None.
Proof.
  split; [apply heap_partial_sort_contract|].
  destruct (reads_inside (T:=int) heap_partial_sort_contract
              [Add 7%Z; Query QMin; Add 3%Z]) as (Hmin & Hmed & Hr).
  split; [exact Hmed|]. split; [|exact Hr].
  intros E. apply Hmin in E. discriminate.
Defined.

Lemma flag_invariant_witness :
  partial_sort_contract (heap_partial_sort (T:=int)) /\
  is_sorted (run heap_partial_sort
               [Add 5%Z; Add 1%Z; Add 4%Z; Query QMedian]) = true /\
  firstn 2 (values (run heap_partial_sort
                      [Add 5%Z; Add 1%Z; Add 4%Z; Query QMedian]))
  = [1%Z; 4%Z].
Proof.
  split; [apply heap_partial_sort_contract|]. split; [reflexivity|].
  exact (proj2 (proj2 (flag_invariant (T:=int) heap_partial_sort_contract
                         [Add 5%Z; Add 1%Z; Add 4%Z; Query QMedian]))
               eq_refl).
Defined.

(** Scenario 3: a single value 42 has standard deviation 0. *)
Lemma standard_deviation_zero_witness :
  [42%Z] <> [] /\
  get_standard_deviation (adds (T:=int) [42%Z]) = Fin 0.
Proof.
  split; [discriminate|].
  destruct (standard_deviation_zero (T:=int) (l:=[42%Z]))
    as (s & Hs & _ & Hzero); [discriminate|].
  rewrite Hs. f_equal. apply Hzero.
  intros v w [<-|[]] [<-|[]]. reflexivity.
Defined.

Lemma deviation_order_independent_witness :
  Permutation [1%Z; 2%Z; 3%Z] [3%Z; 1%Z; 2%Z] /\
  get_standard_deviation (adds (T:=int) [1%Z; 2%Z; 3%Z])
  = get_standard_deviation (adds (T:=int) [3%Z; 1%Z; 2%Z]).
Proof.
  assert (Hp : Permutation [1%Z; 2%Z; 3%Z] [3%Z; 1%Z; 2%Z]).
  { apply Permutation_sym. apply (Permutation_cons_app [1%Z; 2%Z] []).
    reflexivity. }
  split; [exact Hp|].
  exact (proj2 (proj2 (deviation_order_independent (T:=int) Hp))).
Defined.


Lemma in_range_small (z : Z) : (-100 <= z <= 100)%Z -> in_range z.
Proof. unfold in_range, int_min, int_max. lia. Qed.

Lemma get_max_int_program_witness :
  partial_sort_contract (heap_partial_sort (T:=int)) /\
  Forall in_range [-3; -7; -5]%Z /\
  In (get_max (run heap_partial_sort
                 [Add (-3)%Z; Query QRender; Add (-7)%Z; Add (-5)%Z]))
     [-3; -7; -5]%Z /\
  (-3 <= get_max (run heap_partial_sort
                    [Add (-3)%Z; Query QRender; Add (-7)%Z; Add (-5)%Z]))%Z.
Proof.
  assert (Hall : Forall in_range [-3; -7; -5]%Z)
    by (repeat constructor; apply in_range_small; lia).
  split; [apply heap_partial_sort_contract|]. split; [exact Hall|].
  destruct (get_max_int_program heap_partial_sort_contract
              [Add (-3)%Z; Query QRender; Add (-7)%Z; Add (-5)%Z])
    as [Hin Hub]; [discriminate|exact Hall|].
  split; [exact Hin|]. apply Hub. left. reflexivity.
Defined.


Lemma int_above_sentinel (l : list int) :
  Forall in_range l -> forall v, In v l -> t_le (T:=int) limits_min v.
Proof.
  intros Hall v Hv. rewrite Forall_forall in Hall.
  unfold t_le. simpl. apply Z.ltb_ge. apply (Hall v Hv).
Qed.

Lemma min_median_max_witness :
  partial_sort_contract (heap_partial_sort (T:=int)) /\
  Nat.odd (length (added [Add 4%Z; Add (-2)%Z; Query QMin; Add 7%Z]))
    = true /\
  (forall v, In v (added [Add 4%Z; Add (-2)%Z; Query QMin; Add 7%Z]) ->
             t_le (T:=int) limits_min v) /\
  exists m x,
    fst (get_min heap_partial_sort
           (run heap_partial_sort
                [Add 4%Z; Add (-2)%Z; Query QMin; Add 7%Z])) = Some m /\
    fst (get_median heap_partial_sort
           (run heap_partial_sort
                [Add 4%Z; Add (-2)%Z; Query QMin; Add 7%Z]))
      = Some (Fin (to_double x)) /\
    t_le m x /\
    t_le x (get_max (run heap_partial_sort
                       [Add 4%Z; Add (-2)%Z; Query QMin; Add 7%Z])).
Proof.
  assert (Hlow : forall v,
             In v (added [Add 4%Z; Add (-2)%Z; Query QMin; Add 7%Z]) ->
             t_le (T:=int) limits_min v).
  { apply int_above_sentinel.
    repeat constructor; apply in_range_small; lia. }
  split; [apply heap_partial_sort_contract|].
  split; [reflexivity|]. split; [exact Hlow|].
  apply (min_median_max (T:=int) heap_partial_sort_contract
           [Add 4%Z; Add (-2)%Z; Query QMin; Add 7%Z] eq_refl Hlow).
Defined.

Lemma median_even_at_least_witness :
  partial_sort_contract (heap_partial_sort (T:=int)) /\
  Nat.even (length (added [Add 1%Z; Add 2%Z; Add 3%Z; Add 4%Z; Add 6%Z;
                           Add 5%Z])) = true /\
  4 <= length (added [Add 1%Z; Add 2%Z; Add 3%Z; Add 4%Z; Add 6%Z;
                      Add 5%Z]) /\
  exists y,
    In y [1; 2; 3; 4; 6; 5]%Z /\ (4 <= y)%Z /\
    fst (get_median heap_partial_sort
           (run heap_partial_sort
                [Add 1%Z; Add 2%Z; Add 3%Z; Add 4%Z; Add 6%Z; Add 5%Z]))
      = Some (Fin (to_double (t_plus 4%Z y) / 2)).
Proof.
  split; [apply heap_partial_sort_contract|].
  split; [reflexivity|]. split; [simpl; lia|].
  destruct (median_even_at_least (T:=int) heap_partial_sort_contract
              [Add 1%Z; Add 2%Z; Add 3%Z; Add 4%Z; Add 6%Z; Add 5%Z]
              eq_refl)
    as (x & y & Hx & Hy & Hxy & Hmed & _); [simpl; lia|].
  vm_compute in Hx. injection Hx as <-.
  exists y. split; [exact Hy|]. split; [|exact Hmed].
  unfold t_le in Hxy. simpl in Hxy. apply Z.ltb_ge in Hxy. exact Hxy.
Defined.

Lemma get_max_upper_bound_witness :
  partial_sort_contract (heap_partial_sort (T:=int)) /\
  (forall y, In y [2; 9; 4]%Z ->
             (y <= get_max (run heap_partial_sort
                              [Add 2%Z; Add 9%Z; Query QMin; Add 4%Z]))%Z).
Proof.
  split; [apply heap_partial_sort_contract|].
  intros y Hy.
  pose proof (proj1 (get_max_upper_bound (T:=int) heap_partial_sort_contract
                       [Add 2%Z; Add 9%Z; Query QMin; Add 4%Z]) y Hy)
    as Hle.
  unfold t_le in Hle. simpl t_less in Hle. apply Z.ltb_ge in Hle. exact Hle.
Defined.
